(** * The IntersectionObserver lab page: the [intersect] action and the page state

    Shallow embedding of [src/routes/+page.svelte]:
    - the Svelte action [intersect] (closure variables [opts], [current],
      [observer]; the functions [init], [update], [destroy] and the observer
      callback), over an explicit store of platform observers;
    - the page state ([activeSection], [imageSrc], [loadedImages],
      [revealed], [logs]) with [note], [loadFull] and [markRevealed], and
      the parameter objects of every [use:intersect] in the markup. *)

From Stdlib Require Import QArith Qround Lqa.
From Stdlib Require Import Floats.SpecFloat.
From stdpp Require Import gmap strings list relations.

Close Scope Q_scope.
#[local] Set Warnings "-clear-no-such-hyp".

(** ** JavaScript values *)

(** An optional property of an object literal: the key is not there, it is
    there and holds [undefined], or it holds a value.  Object spread copies
    the last two alike; [??] and [?.] treat the first two alike. *)
Inductive field (A : Type) : Type :=
  | Missing
  | Undefined
  | Val (a : A).
Arguments Missing {A}.
Arguments Undefined {A}.
Arguments Val {A} a.

(** [p ?? d] for a property that is never [null]. *)
Definition coalesce {A} (p : field A) (d : A) : A :=
  match p with Val a => a | _ => d end.

(** [p ?? d] for a property of type [T | null]: [None] is [null]. *)
Definition coalesce_null {A} (p : field (option A)) (d : option A) : option A :=
  match p with Val (Some a) => Some a | _ => d end.

(** [x ?? null] for a variable of type [T | null]. *)
Definition or_null {A} (x : option A) : option A :=
  match x with Some a => Some a | None => None end.

(** [{ ...a, ...b }] at one key: an own property of [b] overrides. *)
Definition spread {A} (a b : field A) : field A :=
  match b with Missing => a | _ => b end.

(** [if (p)] for a property of type [boolean | undefined]. *)
Definition truthy (p : field bool) : bool :=
  match p with Val b => b | _ => false end.

(** A JavaScript number: an IEEE 754 double, with the arithmetic of the
    standard (round to nearest, ties to even). *)
Abbreviation number := spec_float.

(** [x * y] and [x / y] on numbers. *)
Definition fmul (x y : number) : number := SFmul 53 1024 x y.

Definition fdiv (x y : number) : number := SFdiv 53 1024 x y.

(** The number an integer literal denotes (exact below 2^53). *)
Definition of_Z (k : Z) : number := binary_normalize 53 1024 k 0 false.

(** The rational a finite number stands for. *)
Definition exact (s : bool) (m : positive) (e : Z) : Q :=
  (inject_Z (cond_Zopp s (Zpos m)) * Qpower 2 e)%Q.

Definition value (x : number) : option Q :=
  match x with
  | S754_zero _ => Some 0%Q
  | S754_finite s m e => Some (exact s m e)
  | _ => None
  end.

(** [Math.round(x)]: the integer nearest to [x], the one towards plus
    infinity when two are as near; a result of zero keeps the sign of
    [x]; zeros, infinities and NaN come back as they are. *)
Definition Math_round (x : number) : number :=
  match x with
  | S754_finite s m e =>
      let k := Qfloor (exact s m e + (1 # 2)) in
      if (k =? 0)%Z then S754_zero s else of_Z k
  | _ => x
  end.

(** DOM elements are compared by identity. *)
Abbreviation Element := nat.

Record IntersectionObserverEntry := {
  target : Element;
  isIntersecting : bool;
  intersectionRatio : number
}.

(** [number | number[]] *)
Inductive Threshold :=
  | Num (q : Q)
  | Nums (l : list Q).

(** [IntersectionObserverInit], as the type of the variable [opts]. *)
Module Init.
Record t := mk {
  root : option Element;
  rootMargin : string;
  threshold : Threshold
}.
End Init.

(** [IntersectionParams]; a callback is a closure that may change the
    world [W] it closes over. *)
Record IntersectionParams (W : Type) := {
  threshold : field Threshold;
  root : field (option Element);
  rootMargin : field string;
  once : field bool;
  onEnter : field (IntersectionObserverEntry → W → W);
  onLeave : field (IntersectionObserverEntry → W → W)
}.
Arguments threshold {W} _.
Arguments root {W} _.
Arguments rootMargin {W} _.
Arguments once {W} _.
Arguments onEnter {W} _.
Arguments onLeave {W} _.

(** The platform object behind [new IntersectionObserver(cb, opts)]: the
    options it was built with and the elements it watches. *)
Record IntersectionObserver := {
  options : Init.t;
  targets : gset Element
}.

Definition observe (t : Element) (ob : IntersectionObserver) : IntersectionObserver :=
  {| options := options ob; targets := targets ob ∪ {[t]} |}.

Definition unobserve (t : Element) (ob : IntersectionObserver) : IntersectionObserver :=
  {| options := options ob; targets := targets ob ∖ {[t]} |}.

Definition disconnect (ob : IntersectionObserver) : IntersectionObserver :=
  {| options := options ob; targets := ∅ |}.

(** ** The action *)

Section Action.
(** What the callbacks close over. *)
Variable W : Type.
(** The constructor's own validation of its options (it throws on a
    threshold outside [0, 1] and on a malformed margin); not part of the
    page's source. *)
Variable accepts : Init.t → bool.

(** One attached action: the argument [node], the closure variables
    [opts], [current] and [observer] ([None] before the first [init]),
    the observers this closure has constructed (it holds the only
    references to them; the variable [observer] is an index into them),
    and the world of the callbacks. *)
Record State := {
  node : Element;
  opts : Init.t;
  current : IntersectionParams W;
  observer : option nat;
  platform : list IntersectionObserver;
  world : W
}.

Definition set_platform (h : list IntersectionObserver) (st : State) : State :=
  {| node := node st; opts := opts st; current := current st;
     observer := observer st; platform := h; world := world st |}.

Definition set_world (w : W) (st : State) : State :=
  {| node := node st; opts := opts st; current := current st;
     observer := observer st; platform := platform st; world := w |}.

(** [observer?.m()] on the store. *)
Definition on_observer (f : IntersectionObserver → IntersectionObserver)
    (st : State) : list IntersectionObserver :=
  match observer st with
  | Some o => alter f o (platform st)
  | None => platform st
  end.

(** [current.onEnter?.(entry)] *)
Definition call (cb : field (IntersectionObserverEntry → W → W))
    (entry : IntersectionObserverEntry) (w : W) : W :=
  match cb with Val f => f entry w | _ => w end.

(** The body of [entries.forEach].  A callback runs only on an observer
    that [init] has built and assigned, so [observer] is set by then. *)
Definition on_entry (st : State) (entry : IntersectionObserverEntry) : State :=
  if isIntersecting entry then
    let st1 := set_world (call (onEnter (current st)) entry (world st)) st in
    if truthy (once (current st1))
    then set_platform (on_observer (unobserve (target entry)) st1) st1
    else st1
  else set_world (call (onLeave (current st)) entry (world st)) st.

(** The observer callback.  Every observer built by [init] gets this same
    closure, which reads the variables [current] and [observer] when it
    runs. *)
Definition callback (entries : list IntersectionObserverEntry) (st : State) : State :=
  fold_left on_entry entries st.

(** Outcome of a call that may throw. *)
Inductive completion :=
  | Returned (st : State)
  | Thrown (st : State).

Definition state_of (c : completion) : State :=
  match c with Returned st | Thrown st => st end.

(** [init()]: when the constructor throws, [observer] keeps the observer
    that has just been disconnected. *)
Definition init (st : State) : completion :=
  let h := on_observer disconnect st in
  if accepts (opts st) then
    Returned {| node := node st; opts := opts st; current := current st;
                observer := Some (length h);
                platform := h ++ [observe (node st) {| options := opts st; targets := ∅ |}];
                world := world st |}
  else Thrown (set_platform h st).

(** [intersect(node, params)] up to its [return]; [None] when the
    constructor throws and no action object comes back. *)
Definition intersect (n : Element) (params : IntersectionParams W) (w : W)
    : option State :=
  match
    init {| node := n;
            opts := Init.mk (coalesce_null (root params) None)
                            (coalesce (rootMargin params) "0px")
                            (coalesce (threshold params) (Num (1 # 4)));
            current := {| threshold := threshold params; root := root params;
                          rootMargin := rootMargin params; once := once params;
                          onEnter := onEnter params; onLeave := onLeave params |};
            observer := None;
            platform := [];
            world := w |}
  with
  | Returned st => Some st
  | Thrown _ => None
  end.

(** [update(next)].  [a ?? b ?? c] groups to the left; its value is that
    of [a ?? (b ?? c)], which is how it is written here. *)
Definition update (next : IntersectionParams W) (st : State) : completion :=
  init {| node := node st;
          opts := Init.mk
                    (coalesce_null (root next) (or_null (Init.root (opts st))))
                    (coalesce (rootMargin next) (coalesce (Val (Init.rootMargin (opts st))) "0px"))
                    (coalesce (threshold next) (Init.threshold (opts st)));
          current := {| threshold := spread (threshold (current st)) (threshold next);
                        root := spread (root (current st)) (root next);
                        rootMargin := spread (rootMargin (current st)) (rootMargin next);
                        once := spread (once (current st)) (once next);
                        onEnter := spread (onEnter (current st)) (onEnter next);
                        onLeave := spread (onLeave (current st)) (onLeave next) |};
          observer := observer st;
          platform := platform st;
          world := world st |}.

(** [destroy()] *)
Definition destroy (st : State) : State :=
  set_platform (on_observer disconnect st) st.

(** The elements the action is watching: the targets of the observer in
    the variable [observer]. *)
Definition watched (st : State) : gset Element :=
  match observer st with
  | Some o => match platform st !! o with
              | Some ob => targets ob
              | None => ∅
              end
  | None => ∅
  end.

(** The targets of the [o]-th observer the action has built. *)
Definition watched_by (o : nat) (st : State) : gset Element :=
  match platform st !! o with
  | Some ob => targets ob
  | None => ∅
  end.

(** The platform reports on watched elements only: a batch it hands to an
    observer holds entries of that observer's targets. *)
Definition deliverable (o : nat) (entries : list IntersectionObserverEntry)
    (st : State) : Prop :=
  Forall (λ e, target e ∈ watched_by o st) entries.

End Action.

Arguments State W : clear implicits.
Arguments completion W : clear implicits.
Arguments node {W} _.
Arguments opts {W} _.
Arguments current {W} _.
Arguments observer {W} _.
Arguments platform {W} _.
Arguments world {W} _.
Arguments set_platform {W} _ _.
Arguments set_world {W} _ _.
Arguments on_observer {W} _ _.
Arguments call {W} _ _ _.
Arguments on_entry {W} _ _.
Arguments callback {W} _ _.
Arguments Returned {W} _.
Arguments Thrown {W} _.
Arguments state_of {W} _.
Arguments init {W} _ _.
Arguments intersect {W} _ _ _ _.
Arguments update {W} _ _ _.
Arguments destroy {W} _.
Arguments watched {W} _.
Arguments watched_by {W} _ _.
Arguments deliverable {W} _ _ _.

(** ** The page *)

Inductive SectionId := Overview | Lazy | Reveal | Spy | Log.

Inductive Direction := enter | leave.

Module LogEntry.
Record t := mk {
  id : string;
  ratio : number;
  direction : Direction;
  time : string
}.
End LogEntry.

Module Item.
Record t := mk {
  id : string;
  title : string;
  description : string;
  blur : string;
  full : string
}.
End Item.

(** The four cards of [gallery]. *)
Definition aurora : Item.t :=
  Item.mk "aurora" "Aurora Cache"
    "Preload offscreen assets with rootMargin and a single observer."
    "https://images.unsplash.com/photo-1444703686981-a3abbc4d4fe3?auto=format&fit=crop&w=40&q=20&blur=40"
    "https://images.unsplash.com/photo-1444703686981-a3abbc4d4fe3?auto=format&fit=crop&w=1400&q=80".

Definition desert : Item.t :=
  Item.mk "desert" "Desert Streams"
    "Observe many targets at once; IO batches them for you."
    "https://images.unsplash.com/photo-1500534314209-a25ddb2bd429?auto=format&fit=crop&w=40&q=20&blur=40"
    "https://images.unsplash.com/photo-1500534314209-a25ddb2bd429?auto=format&fit=crop&w=1400&q=80".

Definition city : Item.t :=
  Item.mk "city" "City Highlights"
    "Use threshold arrays to stagger when UI states flip."
    "https://images.unsplash.com/photo-1444084316824-dc26d6657664?auto=format&fit=crop&w=40&q=20&blur=40"
    "https://images.unsplash.com/photo-1444084316824-dc26d6657664?auto=format&fit=crop&w=1400&q=80".

Definition forest : Item.t :=
  Item.mk "forest" "Forest Signals"
    "Once-only observations keep observers lean over time."
    "https://images.unsplash.com/photo-1500530855697-b586d89ba3ee?auto=format&fit=crop&w=40&q=20&blur=40"
    "https://images.unsplash.com/photo-1500530855697-b586d89ba3ee?auto=format&fit=crop&w=1400&q=80".

Definition gallery : list Item.t := [aurora; desert; city; forest].

(** The ids of [revealBlocks] and of [spySections]. *)
Definition revealBlocks : list string :=
  ["io-batching"; "precision"; "off-main"; "cleanup"].

Definition spySections : list string :=
  ["use-case-1"; "use-case-2"; "use-case-3"].

(** The [$state] variables of the page, and the two pieces of the
    environment its functions touch: [clock] is what
    [Intl.DateTimeFormat('de-DE', ...).format(new Date())] returns now, and
    [loading] holds the [Image] objects whose [onload] handler is set and
    has not run, each with the [item] and [entry] its handler closes over. *)
Record Page := {
  activeSection : SectionId;
  revealThreshold : Q;
  imageSrc : gmap string string;
  loadedImages : gset string;
  revealed : gset string;
  logs : list LogEntry.t;
  clock : string;
  loading : list (Item.t * option IntersectionObserverEntry)
}.

Definition set_activeSection (s : SectionId) (p : Page) : Page :=
  {| activeSection := s; revealThreshold := revealThreshold p;
     imageSrc := imageSrc p; loadedImages := loadedImages p;
     revealed := revealed p; logs := logs p; clock := clock p;
     loading := loading p |}.

Definition set_revealThreshold (q : Q) (p : Page) : Page :=
  {| activeSection := activeSection p; revealThreshold := q;
     imageSrc := imageSrc p; loadedImages := loadedImages p;
     revealed := revealed p; logs := logs p; clock := clock p;
     loading := loading p |}.

Definition set_imageSrc (m : gmap string string) (p : Page) : Page :=
  {| activeSection := activeSection p; revealThreshold := revealThreshold p;
     imageSrc := m; loadedImages := loadedImages p;
     revealed := revealed p; logs := logs p; clock := clock p;
     loading := loading p |}.

Definition set_loadedImages (s : gset string) (p : Page) : Page :=
  {| activeSection := activeSection p; revealThreshold := revealThreshold p;
     imageSrc := imageSrc p; loadedImages := s;
     revealed := revealed p; logs := logs p; clock := clock p;
     loading := loading p |}.

Definition set_revealed (s : gset string) (p : Page) : Page :=
  {| activeSection := activeSection p; revealThreshold := revealThreshold p;
     imageSrc := imageSrc p; loadedImages := loadedImages p;
     revealed := s; logs := logs p; clock := clock p;
     loading := loading p |}.

Definition set_logs (l : list LogEntry.t) (p : Page) : Page :=
  {| activeSection := activeSection p; revealThreshold := revealThreshold p;
     imageSrc := imageSrc p; loadedImages := loadedImages p;
     revealed := revealed p; logs := l; clock := clock p;
     loading := loading p |}.

Definition set_clock (t : string) (p : Page) : Page :=
  {| activeSection := activeSection p; revealThreshold := revealThreshold p;
     imageSrc := imageSrc p; loadedImages := loadedImages p;
     revealed := revealed p; logs := logs p; clock := t;
     loading := loading p |}.

Definition set_loading (l : list (Item.t * option IntersectionObserverEntry))
    (p : Page) : Page :=
  {| activeSection := activeSection p; revealThreshold := revealThreshold p;
     imageSrc := imageSrc p; loadedImages := loadedImages p;
     revealed := revealed p; logs := logs p; clock := clock p;
     loading := l |}.

(** [Object.fromEntries]: a later pair with the same key wins. *)
Definition fromEntries (l : list (string * string)) : gmap string string :=
  fold_left (λ m kv, <[kv.1 := kv.2]> m) l ∅.

(** The page as the script leaves it, the clock reading [t]. *)
Definition initial (t : string) : Page :=
  {| activeSection := Overview;
     revealThreshold := (35 # 100)%Q;
     imageSrc := fromEntries (map (λ item, (Item.id item, Item.blur item)) gallery);
     loadedImages := ∅;
     revealed := ∅;
     logs := [];
     clock := t;
     loading := [] |}.

(** The literal [100]. *)
Definition hundred : number := of_Z 100.

(** [Math.round(x * 100) / 100] *)
Definition round2 (x : number) : number :=
  fdiv (Math_round (fmul x hundred)) hundred.

Definition note (entry : IntersectionObserverEntry) (id : string) (p : Page) : Page :=
  set_logs
    (take 10
       (LogEntry.mk id (round2 (intersectionRatio entry))
          (if isIntersecting entry then enter else leave) (clock p)
        :: logs p))
    p.

(** The handler [loadFull] assigns to [img.onload]. *)
Definition onload (item : Item.t) (entry : option IntersectionObserverEntry)
    (p : Page) : Page :=
  let p1 := set_imageSrc (<[Item.id item := Item.full item]> (imageSrc p)) p in
  let p2 := set_loadedImages (loadedImages p1 ∪ {[Item.id item]}) p1 in
  match entry with
  | Some e => note e (Item.id item) p2
  | None => p2
  end.

Definition loadFull (item : Item.t) (entry : option IntersectionObserverEntry)
    (p : Page) : Page :=
  if decide (imageSrc p !! Item.id item = Some (Item.full item)) then p
  else set_loading (loading p ++ [(item, entry)]) p.

(** The [k]-th image in flight finishes loading: its handler runs, once. *)
Definition image_loaded (k : nat) (p : Page) : Page :=
  match loading p !! k with
  | Some (item, entry) => onload item entry (set_loading (delete k (loading p)) p)
  | None => p
  end.

Definition markRevealed (id : string) (entry : option IntersectionObserverEntry)
    (p : Page) : Page :=
  if decide (id ∈ revealed p) then p
  else
    let p1 := set_revealed (revealed p ∪ {[id]}) p in
    match entry with
    | Some e => note e id p1
    | None => p1
    end.

(** The state the markup renders from. *)
Definition rendered (p : Page)
    : SectionId * gmap string string * gset string * gset string * list LogEntry.t :=
  (activeSection p, imageSrc p, loadedImages p, revealed p, logs p).

(** ** The [use:intersect] attachments of the markup *)

Inductive attachment :=
  | NavSection (s : SectionId)
  | GalleryCard (shot : Item.t)
  | RevealBlock (id : string)
  | SpyArticle (id : string).

(** The literal thresholds of the five [<section>] elements. *)
Definition section_threshold (s : SectionId) : Q :=
  match s with
  | Overview => (6 # 10)%Q
  | Lazy => (5 # 10)%Q
  | Reveal => (55 # 100)%Q
  | Spy => (55 # 100)%Q
  | Log => (4 # 10)%Q
  end.

(** The parameter object each attachment passes, evaluated on page [p]
    (a reveal block reads [revealThreshold]). *)
Definition params_of (a : attachment) (p : Page) : IntersectionParams Page :=
  match a with
  | NavSection s =>
      {| threshold := Val (Num (section_threshold s)); root := Missing;
         rootMargin := Missing; once := Missing;
         onEnter := Val (λ _ q, set_activeSection s q);
         onLeave := Missing |}
  | GalleryCard shot =>
      {| threshold := Val (Num (15 # 100)%Q); root := Missing;
         rootMargin := Val "0px 0px 240px 0px"; once := Val true;
         onEnter := Val (λ entry q, loadFull shot (Some entry) q);
         onLeave := Missing |}
  | RevealBlock id =>
      {| threshold := Val (Num (revealThreshold p)); root := Missing;
         rootMargin := Missing; once := Missing;
         onEnter := Val (λ entry q, markRevealed id (Some entry) q);
         onLeave := Missing |}
  | SpyArticle id =>
      {| threshold := Val (Num (5 # 10)%Q); root := Missing;
         rootMargin := Missing; once := Missing;
         onEnter := Val (λ entry q, note entry id (set_activeSection Spy q));
         onLeave := Val (λ entry q, note entry id q) |}
  end.

(** ** Runs *)

(** What can happen to the page between two renderings: one of its
    functions is called ([loadFull] with a card of the gallery, as every
    call in the markup does), an image in flight finishes loading, the
    slider moves, the clock advances. *)
Inductive step : Page → Page → Prop :=
  | step_note entry id p :
      step p (note entry id p)
  | step_loadFull item entry p :
      item ∈ gallery → step p (loadFull item entry p)
  | step_image_loaded k p :
      step p (image_loaded k p)
  | step_markRevealed id entry p :
      step p (markRevealed id entry p)
  | step_activeSection s p :
      step p (set_activeSection s p)
  | step_revealThreshold q p :
      step p (set_revealThreshold q p)
  | step_clock t p :
      step p (set_clock t p).

(** A page some run of the script can show. *)
Definition reachable (p : Page) : Prop :=
  ∃ t, rtc step (initial t) p.

(** A sequence of calls to [note], each at its own clock reading. *)
Definition notes (calls : list (string * IntersectionObserverEntry * string))
    (p : Page) : Page :=
  fold_left (λ q c, note c.1.2 c.2 (set_clock c.1.1 q)) calls p.

(** What can happen to one attached action: Svelte calls [update] or
    [destroy], the platform runs the callback on a batch, or other code
    changes the world. *)
Inductive action_step {W} (accepts : Init.t → bool) : State W → State W → Prop :=
  | action_update next st :
      action_step accepts st (state_of (update accepts next st))
  | action_callback entries st :
      action_step accepts st (callback entries st)
  | action_destroy st :
      action_step accepts st (destroy st)
  | action_world w st :
      action_step accepts st (set_world w st).

(** A state of an action that [intersect] returned. *)
Definition attached {W} (accepts : Init.t → bool) (st : State W) : Prop :=
  ∃ n params w st0,
    intersect accepts n params w = Some st0 ∧ rtc (action_step accepts) st0 st.

(** ** Invocations *)

(** One call of a callback by the observer callback. *)
Inductive invocation :=
  | Entered (entry : IntersectionObserverEntry)
  | Left (entry : IntersectionObserverEntry).

Definition invoked_with (c : invocation) : IntersectionObserverEntry :=
  match c with Entered e | Left e => e end.

(** The calls a batch stands for, in its order. *)
Definition invocations (entries : list IntersectionObserverEntry) : list invocation :=
  map (λ e, if isIntersecting e then Entered e else Left e) entries.

(** Making one of them on the current parameters. *)
Definition invoke {W} (params : IntersectionParams W) (c : invocation) (w : W) : W :=
  match c with
  | Entered e => call (onEnter params) e w
  | Left e => call (onLeave params) e w
  end.

(** Parameters whose callbacks write down their own invocation. *)
Definition recording (o : field bool) : IntersectionParams (list invocation) :=
  {| threshold := Missing; root := Missing; rootMargin := Missing; once := o;
     onEnter := Val (λ e w, w ++ [Entered e]);
     onLeave := Val (λ e w, w ++ [Left e]) |}.

(** ** The claims that fail, as the specification words them *)

(** With [once] set, once the enter callback has run for an element no
    later callback runs for it; read on callbacks that write down their
    own invocation, starting from an empty record. *)
Definition once_ends_callbacks (accepts : Init.t → bool) : Prop :=
  ∀ n st entries i j entry c,
    intersect accepts n (recording (Val true)) [] = Some st →
    world (callback entries st) !! i = Some (Entered entry) →
    i < j →
    world (callback entries st) !! j = Some c →
    target (invoked_with c) ≠ target entry.

(** A batch with two entries of element 7: it came into view, then left. *)
Definition came_into_view : IntersectionObserverEntry :=
  {| target := 7; isIntersecting := true; intersectionRatio := of_Z 1 |}.

Definition went_out_of_view : IntersectionObserverEntry :=
  {| target := 7; isIntersecting := false; intersectionRatio := S754_zero false |}.

(** A root given in the new parameters is the root of the new observer. *)
Definition given_root_takes_effect (accepts : Init.t → bool) : Prop :=
  ∀ (st st' : State unit) next r o ob,
    attached accepts st →
    root next = Val r →
    update accepts next st = Returned st' →
    observer st' = Some o →
    platform st' !! o = Some ob →
    Init.root (options ob) = r.

(** Parameters that name element 3 as the root, and nothing else. *)
Definition rooted_at_3 : IntersectionParams unit :=
  {| threshold := Missing; root := Val (Some 3); rootMargin := Missing;
     once := Missing; onEnter := Missing; onLeave := Missing |}.

(** New parameters that ask for the viewport as the root. *)
Definition root_null : IntersectionParams unit :=
  {| threshold := Missing; root := Val None; rootMargin := Missing;
     once := Missing; onEnter := Missing; onLeave := Missing |}.

(** Whatever a batch makes the page do to what it renders, it does before
    the observer callback returns: with no image in flight beforehand, no
    handler that runs afterwards changes the rendered state. *)
Definition reacts_within_callback (accepts : Init.t → bool) : Prop :=
  ∀ a n p st entries k,
    loading p = [] →
    intersect accepts n (params_of a p) p = Some st →
    rendered (image_loaded k (world (callback entries st)))
    = rendered (world (callback entries st)).

(** The constructor's range check on thresholds (each within [0, 1]);
    every margin is taken as well-formed. *)
Definition in_range (q : Q) : bool := Qle_bool 0 q && Qle_bool q 1.

Definition thresholds_in_range (i : Init.t) : bool :=
  match Init.threshold i with
  | Num q => in_range q
  | Nums l => forallb in_range l
  end.

(** ** Invariants and merged values *)

(** Among the observers an action has built, only the one in the variable
    [observer] may be watching anything. *)
Definition tidy {W} (st : State W) : Prop :=
  ∀ o ob, platform st !! o = Some ob → observer st ≠ Some o → targets ob = ∅.

(** [result] is [old] overridden by [new] as object spread does it. *)
Definition overridden {A} (old new result : field A) : Prop :=
  (new = Missing → result = old) ∧ (new ≠ Missing → result = new).

(** What a run keeps true of the images: every image in flight is a card
    of the gallery, and every card shows its placeholder or its
    full-resolution picture. *)
Definition two_sources (p : Page) : Prop :=
  Forall (λ x, x.1 ∈ gallery) (loading p)
  ∧ ∀ item, item ∈ gallery →
      imageSrc p !! Item.id item = Some (Item.blur item)
      ∨ imageSrc p !! Item.id item = Some (Item.full item).

(** The image load one call of [loadFull] starts. *)
Definition started_by (item : Item.t) (oe : option IntersectionObserverEntry)
    (p : Page) : list (Item.t * option IntersectionObserverEntry) :=
  if decide (imageSrc p !! Item.id item = Some (Item.full item)) then []
  else [(item, oe)].

(** The image loads a batch starts on a gallery card: one for each
    intersecting entry, unless the card shows its full picture already. *)
Definition started (shot : Item.t) (entries : list IntersectionObserverEntry)
    (p : Page) : list (Item.t * option IntersectionObserverEntry) :=
  if decide (imageSrc p !! Item.id shot = Some (Item.full shot)) then []
  else map (λ e, (shot, Some e)) (filter (λ e, isIntersecting e = true) entries).

(** ** Sample inputs *)

(** What [intersect] returns on element 7 with recording callbacks and
    [once] set. *)
Definition attached_once : State (list invocation) :=
  {| node := 7;
     opts := Init.mk None "0px" (Num (1 # 4));
     current := recording (Val true);
     observer := Some 0;
     platform := [{| options := Init.mk None "0px" (Num (1 # 4));
                     targets := ∅ ∪ {[7]} |}];
     world := [] |}.

(** New parameters that hold a threshold of one half and nothing else. *)
Definition half_threshold : IntersectionParams (list invocation) :=
  {| threshold := Val (Num (1 # 2)); root := Missing; rootMargin := Missing;
     once := Missing; onEnter := Missing; onLeave := Missing |}.

(** The double nearest to 0.015, and an entry with that ratio. *)
Definition ratio_0_015 : number := S754_finite false 8646911284551352 (-59).

Definition barely_visible : IntersectionObserverEntry :=
  {| target := 7; isIntersecting := true; intersectionRatio := ratio_0_015 |}.

(** The double nearest to 0.02. *)
Definition ratio_0_02 : number := S754_finite false 5764607523034235 (-58).

(** Twelve calls of [note] for the first scroll-spy article. *)
Definition twelve_notes : list (string * IntersectionObserverEntry * string) :=
  replicate 12 ("12:00:00", came_into_view, "use-case-1").

(** ** The rest of the script and of the markup *)

(** [{ ...a, ...b }] on parameter objects. *)
Definition spread_params {W} (a b : IntersectionParams W) : IntersectionParams W :=
  {| threshold := spread (threshold a) (threshold b);
     root := spread (root a) (root b);
     rootMargin := spread (rootMargin a) (rootMargin b);
     once := spread (once a) (once b);
     onEnter := spread (onEnter a) (onEnter b);
     onLeave := spread (onLeave a) (onLeave b) |}.

(** [{}] *)
Definition no_params {W} : IntersectionParams W :=
  {| threshold := Missing; root := Missing; rootMargin := Missing;
     once := Missing; onEnter := Missing; onLeave := Missing |}.

(** What holds of an action from [intersect] on: the variable [observer]
    names an observer the action has built, that observer watches nothing
    but the node, and it runs with [opts] unless the constructor has
    turned [opts] down. *)
Definition live {W} (accepts : Init.t → bool) (st : State W) : Prop :=
  ∃ o ob,
    observer st = Some o
    ∧ platform st !! o = Some ob
    ∧ targets ob ⊆ {[node st]}
    ∧ (accepts (opts st) = true → options ob = opts st).

(** The targets of the intersecting entries of a batch. *)
Definition entered (entries : list IntersectionObserverEntry) : gset Element :=
  list_to_set (target <$> filter (λ e, isIntersecting e = true) entries).

(** The record [note] builds at clock reading [t]. *)
Definition record_of (t : string) (entry : IntersectionObserverEntry)
    (id : string) : LogEntry.t :=
  LogEntry.mk id (round2 (intersectionRatio entry))
    (if isIntersecting entry then enter else leave) t.

(** A direction as the string it is. *)
Definition direction_text (d : Direction) : string :=
  match d with enter => "enter" | leave => "leave" end.

(** The key of a row of the log: [entry.time + entry.id + entry.direction]. *)
Definition log_key (r : LogEntry.t) : string :=
  (LogEntry.time r +:+ LogEntry.id r) +:+ direction_text (LogEntry.direction r).

(** The values of the slider: [min="0.05" max="0.8" step="0.05"]. *)
Definition slider_values : list Q :=
  map (λ k, (5 * Z.of_nat k # 100)%Q) (seq 1 16).

(** What a run keeps true of the loaded marks: a marked id is the id of a
    card that shows its full-resolution picture. *)
Definition loaded_shows_full (p : Page) : Prop :=
  ∀ id, id ∈ loadedImages p →
    ∃ item, item ∈ gallery ∧ Item.id item = id
            ∧ imageSrc p !! id = Some (Item.full item).

(** ** The observer of the top level *)

(** The script also builds one observer outside the action, whose
    callback swaps [img.src] for [img.dataset.src] and stops watching the
    element; nothing in the file calls its [observe]. *)
Module Preload.

(** What the callback reads and writes.  Elements are HTML elements, so
    each has a [dataset]; [images] are those that are [<img>] elements.
    On an image, [src] is the [src] attribute, which an assignment to
    [img.src] sets; on any other element the assignment only leaves an own
    property [src] on the object ([own_src], [None] for [undefined]) and
    no attribute.  [data_src] is the [data-src] attribute where set, and
    [targets] the targets of the observer. *)
Record State := {
  images : gset Element;
  src : gmap Element string;
  own_src : gmap Element (option string);
  data_src : gmap Element string;
  targets : gset Element
}.

(** The options the observer is built with. *)
Definition options : Init.t := Init.mk None "200px 0px" (Num 0).

(** The string an assignment to the [src] of an image stores:
    [undefined] becomes the text ["undefined"]. *)
Definition assigned (v : option string) : string :=
  match v with Some s => s | None => "undefined" end.

(** The body of the [for] loop. *)
Definition on_entry (st : State) (entry : IntersectionObserverEntry) : State :=
  if negb (isIntersecting entry) then st
  else if decide (target entry ∈ images st) then
    {| images := images st;
       src := <[target entry := assigned (data_src st !! target entry)]> (src st);
       own_src := own_src st;
       data_src := data_src st;
       targets := targets st ∖ {[target entry]} |}
  else
    {| images := images st;
       src := src st;
       own_src := <[target entry := data_src st !! target entry]> (own_src st);
       data_src := data_src st;
       targets := targets st ∖ {[target entry]} |}.

Definition callback (entries : list IntersectionObserverEntry) (st : State) : State :=
  fold_left on_entry entries st.

End Preload.

(** The closure variables once [update] has made its two assignments,
    before it calls [init]. *)
Definition reassigned {W} (next : IntersectionParams W) (st : State W) : State W :=
  {| node := node st;
     opts := Init.mk
               (coalesce_null (root next) (or_null (Init.root (opts st))))
               (coalesce (rootMargin next) (coalesce (Val (Init.rootMargin (opts st))) "0px"))
               (coalesce (threshold next) (Init.threshold (opts st)));
     current := spread_params (current st) next;
     observer := observer st;
     platform := platform st;
     world := world st |}.

(** New parameters whose observer options are each left out or given a
    value: none is [undefined], and [root] is not [null]. *)
Definition plain {W} (next : IntersectionParams W) : Prop :=
  root next ≠ Undefined ∧ root next ≠ Val None
  ∧ rootMargin next ≠ Undefined ∧ threshold next ≠ Undefined.

(** * Properties of the action *)

Section ActionFacts.
Context {W : Type}.
Implicit Types (st : State W) (entry : IntersectionObserverEntry).
Implicit Types (entries : list IntersectionObserverEntry).

Lemma watched_unobserve st t :
  watched (set_platform (on_observer (unobserve t) st) st) = watched st ∖ {[t]}.
Proof.
  unfold watched, on_observer. simpl.
  destruct (observer st) as [o|]; simpl; [|set_solver].
  rewrite list_lookup_alter_eq.
  destruct (platform st !! o); simpl; set_solver.
Qed.

Lemma watched_set_world st w : watched (set_world w st) = watched st.
Proof. reflexivity. Qed.

(** The callback assigns none of the closure variables. *)
Lemma on_entry_vars st entry :
  node (on_entry st entry) = node st
  ∧ opts (on_entry st entry) = opts st
  ∧ current (on_entry st entry) = current st
  ∧ observer (on_entry st entry) = observer st.
Proof.
  unfold on_entry.
  destruct (isIntersecting entry); simpl; [|done].
  destruct (truthy (once (current st))); done.
Qed.

Lemma callback_vars entries st :
  node (callback entries st) = node st
  ∧ opts (callback entries st) = opts st
  ∧ current (callback entries st) = current st
  ∧ observer (callback entries st) = observer st.
Proof.
  revert st. induction entries as [|e es IH]; intros st; [done|].
  simpl. destruct (IH (on_entry st e)) as (-> & -> & -> & ->).
  apply on_entry_vars.
Qed.

Lemma on_entry_world st entry :
  world (on_entry st entry)
  = invoke (current st) (if isIntersecting entry then Entered entry else Left entry)
      (world st).
Proof.
  unfold on_entry.
  destruct (isIntersecting entry); simpl; [|done].
  destruct (truthy (once (current st))); done.
Qed.

Lemma callback_world entries st :
  world (callback entries st)
  = fold_left (λ w c, invoke (current st) c w) (invocations entries) (world st).
Proof.
  revert st. induction entries as [|e es IH]; intros st; [done|].
  simpl. rewrite IH, on_entry_world.
  by destruct (on_entry_vars st e) as (_ & _ & -> & _).
Qed.

Lemma on_entry_watched st entry :
  watched (on_entry st entry) ⊆ watched st.
Proof.
  unfold on_entry.
  destruct (isIntersecting entry); [|done].
  destruct (truthy _); [|done].
  rewrite watched_unobserve. set_solver.
Qed.

Lemma callback_watched entries st :
  watched (callback entries st) ⊆ watched st.
Proof.
  revert st. induction entries as [|e es IH]; intros st; [done|].
  simpl. etrans; [apply IH|apply on_entry_watched].
Qed.

Lemma on_entry_once st entry :
  truthy (once (current st)) = true → isIntersecting entry = true →
  target entry ∉ watched (on_entry st entry).
Proof.
  intros Ho Hi. unfold on_entry. rewrite Hi. simpl. rewrite Ho.
  rewrite watched_unobserve. set_solver.
Qed.

Lemma callback_once entries st entry :
  truthy (once (current st)) = true →
  entry ∈ entries → isIntersecting entry = true →
  target entry ∉ watched (callback entries st).
Proof.
  intros Ho Hin Hi. revert st Ho.
  induction Hin as [e es|e e' es Hin IH]; intros st Ho.
  - change (target e ∉ watched (callback es (on_entry st e))).
    intros Hw. apply (on_entry_once st e Ho Hi).
    by apply (callback_watched es).
  - change (target e ∉ watched (callback es (on_entry st e'))).
    apply IH; [done|]. destruct (on_entry_vars st e') as (_ & _ & Hc & _).
    by rewrite Hc.
Qed.

End ActionFacts.

Section ActionClaims.
Context {W : Type} (accepts : Init.t → bool).
Implicit Types (st : State W) (entry : IntersectionObserverEntry).
Implicit Types (entries : list IntersectionObserverEntry).
Implicit Types (params next : IntersectionParams W).

(** C1 (amended).  The observer callback calls, for each entry of the
    batch in order, the current [onEnter] (if set) when the entry is
    intersecting and the current [onLeave] (if set) when it is not, with
    that entry, whatever came before in the batch.  It assigns none of
    the closure variables and never starts watching anything.  With
    [once] set, after the batch the action's observer no longer watches
    the target of any intersecting entry, so no later batch of that
    observer holds an entry for it. *)
Theorem callback_dispatches_batch st entries :
  let st' := callback entries st in
  world st'
  = fold_left (λ w c, invoke (current st) c w) (invocations entries) (world st)
  ∧ current st' = current st
  ∧ observer st' = observer st
  ∧ watched st' ⊆ watched st
  ∧ (truthy (once (current st)) = true →
     ∀ entry, entry ∈ entries → isIntersecting entry = true →
       (target entry ∉ watched st')
       ∧ (∀ o later, observer st' = Some o → deliverable o later st' →
            Forall (λ e, target e ≠ target entry) later)).
Proof.
  intros st'. subst st'.
  destruct (callback_vars entries st) as (_ & _ & Hc & Ho).
  split_and!; [apply callback_world|done|done|apply callback_watched|].
  intros Honce entry Hin Hi.
  pose proof (callback_once entries st entry Honce Hin Hi) as Hnot.
  split; [done|].
  intros o later Hobs Hdel.
  eapply Forall_impl; [exact Hdel|].
  intros e He Heq. apply Hnot.
  unfold watched. rewrite Hobs. unfold watched_by in He. by rewrite <- Heq.
Qed.

Lemma on_entry_others st entry o :
  observer st ≠ Some o → platform (on_entry st entry) !! o = platform st !! o.
Proof.
  intros Hne. unfold on_entry.
  destruct (isIntersecting entry); [|done].
  destruct (truthy _); [|done].
  simpl. unfold on_observer. simpl.
  destruct (observer st) as [o'|]; [|done].
  apply list_lookup_alter_ne. congruence.
Qed.

Lemma callback_others entries st o :
  observer st ≠ Some o → platform (callback entries st) !! o = platform st !! o.
Proof.
  revert st. induction entries as [|e es IH]; intros st Hne; [done|].
  change (platform (callback es (on_entry st e)) !! o = platform st !! o).
  rewrite IH, on_entry_others; [done..|].
  by destruct (on_entry_vars st e) as (_ & _ & _ & ->).
Qed.

Lemma tidy_init st : tidy st → tidy (state_of (init accepts st)).
Proof.
  intros Ht o ob. unfold init.
  assert (∀ ob', on_observer disconnect st !! o = Some ob' →
                 observer st ≠ Some o → targets ob' = ∅) as Hold.
  { intros ob' Hl Hne. apply (Ht o ob'); [|done].
    unfold on_observer in Hl. destruct (observer st) as [o'|]; [|done].
    rewrite list_lookup_alter_ne in Hl; [done|congruence]. }
  assert (∀ ob', on_observer disconnect st !! o = Some ob' →
                 observer st = Some o → targets ob' = ∅) as Hcur.
  { intros ob' Hl Heq. unfold on_observer in Hl. rewrite Heq in Hl.
    rewrite list_lookup_alter_eq in Hl.
    destruct (platform st !! o); simplify_eq/=. done. }
  destruct (accepts (opts st)); simpl.
  - intros Hl Hne.
    apply lookup_app_Some in Hl as [Hl|[Hlen Hl]].
    + destruct (decide (observer st = Some o)); eauto.
    + destruct (o - length (on_observer disconnect st)) as [|k] eqn:Hk;
        [|done].
      exfalso. apply Hne. f_equal. lia.
  - intros Hl Hne. eauto.
Qed.

Lemma tidy_step st st' : action_step accepts st st' → tidy st → tidy st'.
Proof.
  intros Hstep Ht. destruct Hstep as [next st|es st|st|w st].
  - apply tidy_init. exact Ht.
  - intros o ob Hl Hne.
    destruct (callback_vars es st) as (_ & _ & _ & Ho). rewrite Ho in Hne.
    rewrite callback_others in Hl by done. eauto.
  - intros o ob Hl Hne. simpl in *. unfold on_observer in Hl.
    destruct (observer st) as [o'|] eqn:Hobs.
    + rewrite list_lookup_alter_ne in Hl by congruence.
      apply (Ht o ob); [done|congruence].
    + apply (Ht o ob); [done|congruence].
  - exact Ht.
Qed.

Lemma tidy_run st st' : rtc (action_step accepts) st st' → tidy st → tidy st'.
Proof. induction 1; eauto using tidy_step. Qed.

Lemma tidy_intersect n params w st :
  intersect accepts n params w = Some st → tidy st.
Proof.
  unfold intersect. intros Hst.
  match type of Hst with
  | match init _ ?s with _ => _ end = _ =>
      pose proof (tidy_init s) as Hi; destruct (init accepts s)
  end; [|done].
  simplify_eq. apply Hi. by intros o ob Hl.
Qed.

Lemma tidy_attached st : attached accepts st → tidy st.
Proof.
  intros (n & params & w & st0 & Hst0 & Hrun).
  eauto using tidy_run, tidy_intersect.
Qed.

(** C9.  When the constructor accepts the options, [intersect] leaves one
    observer, watching the node; its root is [null] when [params] has no
    [root], its margin ['0px'] when [params] has no [rootMargin], its
    threshold 0.25 when [params] has no [threshold], each regardless of
    the other two. *)
Theorem intersect_defaults n params w st :
  intersect accepts n params w = Some st →
  ∃ ob,
    observer st = Some 0 ∧ platform st = [ob] ∧ targets ob = {[n]}
    ∧ (root params = Missing → Init.root (options ob) = None)
    ∧ (rootMargin params = Missing → Init.rootMargin (options ob) = "0px")
    ∧ (threshold params = Missing → Init.threshold (options ob) = Num (1 # 4)).
Proof.
  unfold intersect, init. simpl.
  destruct (accepts _); [|done].
  intros [= <-]. eexists. simpl.
  split_and!; [done|done|set_solver|..]; by intros ->.
Qed.

(** C2 (amended).  When the constructor accepts the merged options,
    [update] disconnects the observer at hand and leaves a new one
    watching the node.  Its root, margin and threshold are those of
    [next] where [next] holds a value that is neither [undefined] nor
    [null], and otherwise those the variable [opts] held before the
    call; [current] takes every own property of [next], an [undefined]
    one too, and keeps the others. *)
Theorem update_recreates_observer next st st' :
  update accepts next st = Returned st' →
  (∀ o ob, observer st = Some o → platform st !! o = Some ob →
           platform st' !! o = Some (disconnect ob))
  ∧ observer st' = Some (length (platform st))
  ∧ platform st' !! length (platform st)
    = Some {| options := opts st'; targets := {[node st]} |}
  ∧ node st' = node st
  ∧ world st' = world st
  ∧ ((∀ el, root next = Val (Some el) → Init.root (opts st') = Some el)
     ∧ (root next = Missing ∨ root next = Undefined ∨ root next = Val None →
        Init.root (opts st') = Init.root (opts st)))
  ∧ ((∀ m, rootMargin next = Val m → Init.rootMargin (opts st') = m)
     ∧ (rootMargin next = Missing ∨ rootMargin next = Undefined →
        Init.rootMargin (opts st') = Init.rootMargin (opts st)))
  ∧ ((∀ t, threshold next = Val t → Init.threshold (opts st') = t)
     ∧ (threshold next = Missing ∨ threshold next = Undefined →
        Init.threshold (opts st') = Init.threshold (opts st)))
  ∧ overridden (threshold (current st)) (threshold next) (threshold (current st'))
  ∧ overridden (root (current st)) (root next) (root (current st'))
  ∧ overridden (rootMargin (current st)) (rootMargin next) (rootMargin (current st'))
  ∧ overridden (once (current st)) (once next) (once (current st'))
  ∧ overridden (onEnter (current st)) (onEnter next) (onEnter (current st'))
  ∧ overridden (onLeave (current st)) (onLeave next) (onLeave (current st')).
Proof.
  unfold update, init. simpl.
  destruct (accepts _); [|done].
  intros [= <-]. simpl.
  assert (length (on_observer disconnect
            {| node := node st; opts := opts st; current := current st;
               observer := observer st; platform := platform st;
               world := world st |}) = length (platform st)) as Hlen.
  { unfold on_observer. simpl. destruct (observer st); [|done].
    apply length_alter. }
  unfold on_observer in *. simpl in *.
  split_and!.
  - intros o ob -> Hl.
    rewrite lookup_app_l.
    + by rewrite list_lookup_alter_eq, Hl.
    + rewrite length_alter. by apply lookup_lt_Some in Hl.
  - by rewrite Hlen.
  - rewrite <- Hlen at 1. rewrite list_lookup_middle; [|done].
    unfold observe. simpl. do 2 f_equal. set_solver.
  - done.
  - done.
  - by intros el ->.
  - intros [-> | [-> | ->]]; simpl; by destruct (Init.root (opts st)).
  - by intros m ->.
  - by intros [-> | ->].
  - by intros t ->.
  - by intros [-> | ->].
  - split; [by intros ->|]. by destruct (threshold next).
  - split; [by intros ->|]. by destruct (root next).
  - split; [by intros ->|]. by destruct (rootMargin next).
  - split; [by intros ->|]. by destruct (once next).
  - split; [by intros ->|]. by destruct (onEnter next).
  - split; [by intros ->|]. by destruct (onLeave next).
Qed.

(** C8.  On an action that [intersect] returned, whatever has happened
    to it since, [destroy] leaves every observer the action has built
    with no target, so the platform has no batch but the empty one for
    any of them; it changes nothing else: the closure variables, the
    world, the number of observers and their options stay as they
    were, and the observers other than the current one are untouched. *)
Theorem destroy_stops_watching st :
  attached accepts st →
  let st' := destroy st in
  (∀ o, watched_by o st' = ∅)
  ∧ (∀ o entries, deliverable o entries st' → entries = [])
  ∧ node st' = node st
  ∧ opts st' = opts st
  ∧ current st' = current st
  ∧ observer st' = observer st
  ∧ world st' = world st
  ∧ length (platform st') = length (platform st)
  ∧ (∀ o, options <$> platform st' !! o = options <$> platform st !! o)
  ∧ (∀ o, observer st ≠ Some o → platform st' !! o = platform st !! o).
Proof.
  intros Hat st'. pose proof (tidy_attached st Hat) as Ht.
  assert (∀ o, watched_by o st' = ∅) as Hnone.
  { intros o. unfold watched_by, st', destroy, on_observer. simpl.
    destruct (observer st) as [o'|] eqn:Hobs.
    - destruct (decide (o' = o)) as [->|Hne].
      + rewrite list_lookup_alter_eq. by destruct (platform st !! o).
      + rewrite list_lookup_alter_ne by done.
        destruct (platform st !! o) as [ob|] eqn:Hl; [|done].
        apply (Ht o ob Hl). congruence.
    - destruct (platform st !! o) as [ob|] eqn:Hl; [|done].
      apply (Ht o ob Hl). congruence. }
  split_and!; try done.
  - intros o [|e es] Hdel; [done|].
    apply Forall_cons in Hdel as [He _]. rewrite Hnone in He. set_solver.
  - unfold st', destroy, on_observer. simpl.
    destruct (observer st); [apply length_alter|done].
  - intros o. unfold st', destroy, on_observer. simpl.
    destruct (observer st) as [o'|]; [|done].
    destruct (decide (o' = o)) as [->|Hne].
    + rewrite list_lookup_alter_eq. by destruct (platform st !! o).
    + by rewrite list_lookup_alter_ne.
  - intros o Hne. unfold st', destroy, on_observer. simpl.
    destruct (observer st) as [o'|]; [|done].
    apply list_lookup_alter_ne. congruence.
Qed.

End ActionClaims.

(** C1 as worded fails.  On an action with [once] set, the batch
    [came_into_view; went_out_of_view] (two entries of element 7) runs both
    callbacks, the second after the observer has stopped watching the
    element: a later entry of the same element in the batch still reaches
    its callback.  And after the enter callback has run and the element is
    no longer watched, an [update] builds an observer that watches it
    again, whose next batch runs the enter callback a second time. *)
Lemma once_ends_callbacks_fails :
  (∃ st,
    intersect thresholds_in_range 7 (recording (Val true)) [] = Some st
    ∧ watched st = {[7]}
    ∧ watched (callback [came_into_view] st) = ∅
    ∧ world (callback [came_into_view; went_out_of_view] st)
      = [Entered came_into_view; Left went_out_of_view]
    ∧ watched (state_of (update thresholds_in_range half_threshold
                           (callback [came_into_view] st))) = {[7]}
    ∧ world (callback [came_into_view]
               (state_of (update thresholds_in_range half_threshold
                            (callback [came_into_view] st))))
      = [Entered came_into_view; Entered came_into_view])
  ∧ ¬ once_ends_callbacks thresholds_in_range.
Proof.
  assert (∃ st,
    intersect thresholds_in_range 7 (recording (Val true)) [] = Some st
    ∧ watched st = {[7]}
    ∧ watched (callback [came_into_view] st) = ∅
    ∧ world (callback [came_into_view; went_out_of_view] st)
      = [Entered came_into_view; Left went_out_of_view]
    ∧ watched (state_of (update thresholds_in_range half_threshold
                           (callback [came_into_view] st))) = {[7]}
    ∧ world (callback [came_into_view]
               (state_of (update thresholds_in_range half_threshold
                            (callback [came_into_view] st))))
      = [Entered came_into_view; Entered came_into_view]) as Hrun.
  { eexists. split; [reflexivity|]. split_and!; vm_compute; reflexivity. }
  split; [exact Hrun|].
  intros H. destruct Hrun as (st & Hst & _ & _ & Hw & _).
  apply (H 7 st [came_into_view; went_out_of_view] 0 1
           came_into_view (Left went_out_of_view) Hst).
  - by rewrite Hw.
  - lia.
  - by rewrite Hw.
  - reflexivity.
Qed.

(** * Properties of the page *)

Section PageFacts.
Implicit Types (p q : Page) (entry : IntersectionObserverEntry).
Implicit Types (item shot : Item.t) (id : string).

(** No two cards of the gallery share an id. *)
Lemma gallery_ids item item' :
  item ∈ gallery → item' ∈ gallery → Item.id item = Item.id item' → item = item'.
Proof.
  unfold gallery. rewrite !elem_of_cons, !elem_of_nil.
  intros [->|[->|[->|[->|[]]]]] [->|[->|[->|[->|[]]]]]; simpl; intros;
    try reflexivity; discriminate.
Qed.

Lemma initial_blur t item :
  item ∈ gallery → imageSrc (initial t) !! Item.id item = Some (Item.blur item).
Proof.
  unfold gallery. rewrite !elem_of_cons, !elem_of_nil.
  intros [->|[->|[->|[->|[]]]]]; reflexivity.
Qed.

(** [note] touches [logs] only. *)
Lemma note_frame entry id p :
  activeSection (note entry id p) = activeSection p
  ∧ revealThreshold (note entry id p) = revealThreshold p
  ∧ imageSrc (note entry id p) = imageSrc p
  ∧ loadedImages (note entry id p) = loadedImages p
  ∧ revealed (note entry id p) = revealed p
  ∧ clock (note entry id p) = clock p
  ∧ loading (note entry id p) = loading p.
Proof. done. Qed.

Lemma note_length entry id p : length (logs (note entry id p)) ≤ 10.
Proof. unfold note. simpl. rewrite length_take. lia. Qed.

Lemma onload_imageSrc item oe p :
  imageSrc (onload item oe p) = <[Item.id item := Item.full item]> (imageSrc p).
Proof. by destruct oe. Qed.

Lemma onload_loadedImages item oe p :
  loadedImages (onload item oe p) = loadedImages p ∪ {[Item.id item]}.
Proof. by destruct oe. Qed.

Lemma onload_frame item oe p :
  activeSection (onload item oe p) = activeSection p
  ∧ revealed (onload item oe p) = revealed p
  ∧ loading (onload item oe p) = loading p.
Proof. by destruct oe. Qed.

Lemma loadFull_frame item oe p :
  rendered (loadFull item oe p) = rendered p
  ∧ clock (loadFull item oe p) = clock p
  ∧ revealThreshold (loadFull item oe p) = revealThreshold p.
Proof. unfold loadFull. by destruct (decide _). Qed.

Lemma loadFull_loading item oe p :
  loading (loadFull item oe p) = loading p ++ started_by item oe p.
Proof.
  unfold loadFull, started_by.
  destruct (decide _); simpl; [by rewrite app_nil_r|done].
Qed.

Lemma markRevealed_frame id oe p :
  imageSrc (markRevealed id oe p) = imageSrc p
  ∧ loadedImages (markRevealed id oe p) = loadedImages p
  ∧ loading (markRevealed id oe p) = loading p
  ∧ revealed p ⊆ revealed (markRevealed id oe p).
Proof.
  unfold markRevealed. destruct (decide _); [done|].
  destruct oe; simpl; split_and!; try done; set_solver.
Qed.

Lemma notes_length calls p :
  length (logs p) ≤ 10 → length (logs (notes calls p)) ≤ 10.
Proof.
  revert p. induction calls as [|c cs IH]; intros p Hp; [done|].
  apply IH, note_length.
Qed.

(** C3.  Starting from an empty log, after each call of any sequence of
    calls to [note] the log holds at most 10 records. *)
Theorem logs_at_most_10 calls p :
  logs p = [] → ∀ k, length (logs (notes (take k calls) p)) ≤ 10.
Proof.
  intros Hp k. apply notes_length. rewrite Hp. simpl. lia.
Qed.

Lemma Qfloor_unique (x : Q) (k : Z) :
  (inject_Z k <= x)%Q → (x < inject_Z k + 1)%Q → Qfloor x = k.
Proof.
  intros Hle Hlt.
  pose proof (Qfloor_le x) as H1. pose proof (Qlt_floor x) as H2.
  assert (inject_Z k < inject_Z (Qfloor x + 1))%Q as Ha by lra.
  assert (inject_Z (Qfloor x) < inject_Z (k + 1))%Q as Hb.
  { rewrite inject_Z_plus. change (inject_Z 1) with 1%Q. lra. }
  rewrite <- Zlt_Qlt in Ha, Hb. lia.
Qed.

(** [Math.round] gives the integer within a half of its argument, the
    upper one at a tie. *)
Lemma Math_round_nearest (x : number) (v : Q) (k : Z) :
  value x = Some v →
  (inject_Z k - (1 # 2) <= v)%Q → (v < inject_Z k + (1 # 2))%Q →
  (k ≠ 0%Z → Math_round x = of_Z k)
  ∧ (k = 0%Z → ∃ s, Math_round x = S754_zero s).
Proof.
  intros Hv Hle Hlt.
  assert (Qfloor (v + (1 # 2)) = k) as Hk.
  { apply Qfloor_unique; lra. }
  destruct x as [s|s| |s m e]; simpl in Hv; try discriminate.
  - injection Hv as <-. vm_compute in Hk. subst k.
    split; [done|]. intros _. by exists s.
  - injection Hv as <-. unfold Math_round. rewrite Hk. split.
    + intros Hne. apply Z.eqb_neq in Hne. by rewrite Hne.
    + intros ->. by exists s.
Qed.

(** The rounding at the doubles 0.015, 0.155, 0.545, 0.285 and 0.005:
    0.02, 0.16, 0.55, 0.28 and 0.01. *)
Lemma round2_samples :
  round2 ratio_0_015 = ratio_0_02
  ∧ round2 (S754_finite false 5584463537939415 (-55))
    = S754_finite false 5764607523034235 (-55)
  ∧ round2 (S754_finite false 4908923593833841 (-53))
    = S754_finite false 4953959590107546 (-53)
  ∧ round2 (S754_finite false 5134103575202365 (-54))
    = S754_finite false 5044031582654956 (-54)
  ∧ round2 (S754_finite false 5764607523034235 (-60))
    = S754_finite false 5764607523034235 (-59).
Proof. vm_compute. done. Qed.

(** C4.  [note] puts the new record first and keeps the first 9 of the
    old ones behind it, in their order.  The record has the given id,
    direction [enter] exactly when the entry is intersecting, the clock's
    reading, and as its ratio the double [Math.round(ratio * 100) / 100]:
    when [k] is the integer within a half of the double product
    [ratio * 100] (the upper one at a tie), the ratio logged is the double
    quotient [k / 100], and a zero when [k] is 0. *)
Theorem note_newest_first entry id p :
  ∃ r,
    logs (note entry id p) = r :: take 9 (logs p)
    ∧ LogEntry.id r = id
    ∧ LogEntry.ratio r = round2 (intersectionRatio entry)
    ∧ (LogEntry.direction r = enter ↔ isIntersecting entry = true)
    ∧ (LogEntry.direction r = leave ↔ isIntersecting entry = false)
    ∧ LogEntry.time r = clock p
    ∧ LogEntry.ratio r
      = fdiv (Math_round (fmul (intersectionRatio entry) (of_Z 100))) (of_Z 100)
    ∧ (∀ v k,
         value (fmul (intersectionRatio entry) (of_Z 100)) = Some v →
         (inject_Z k - (1 # 2) <= v)%Q →
         (v < inject_Z k + (1 # 2))%Q →
         (k ≠ 0%Z → LogEntry.ratio r = fdiv (of_Z k) (of_Z 100))
         ∧ (k = 0%Z → ∃ s, LogEntry.ratio r = S754_zero s)).
Proof.
  exists (LogEntry.mk id (round2 (intersectionRatio entry))
            (if isIntersecting entry then enter else leave) (clock p)).
  split; [reflexivity|].
  cbn [LogEntry.id LogEntry.ratio LogEntry.direction LogEntry.time].
  split_and!; try reflexivity; try (by destruct (isIntersecting entry)).
  intros v k Hv Hle Hlt. unfold round2, hundred.
  destruct (Math_round_nearest _ v k Hv Hle Hlt) as [Hnz Hz].
  split.
  - intros Hne. by rewrite (Hnz Hne).
  - intros Hk. destruct (Hz Hk) as [s Hs]. rewrite Hs.
    exists s. by destruct s.
Qed.

Lemma step_sets p p' :
  step p p' →
  loadedImages p ⊆ loadedImages p' ∧ revealed p ⊆ revealed p'.
Proof.
  destruct 1 as [e id p|item oe p _|k p|id oe p|s p|x p|t p]; try done.
  - unfold loadFull. by destruct (decide _).
  - unfold image_loaded. destruct (loading p !! k) as [[item oe]|]; [|done].
    rewrite onload_loadedImages.
    destruct (onload_frame item oe (set_loading (delete k (loading p)) p))
      as (_ & -> & _).
    simpl. set_solver.
  - destruct (markRevealed_frame id oe p) as (_ & -> & _ & ?). done.
Qed.

(** C5.  Along any run of page operations, an id that is in
    [loadedImages] stays in it and an id that is in [revealed] stays in
    it. *)
Theorem membership_is_final p p' id :
  rtc step p p' →
  (id ∈ loadedImages p → id ∈ loadedImages p')
  ∧ (id ∈ revealed p → id ∈ revealed p').
Proof.
  induction 1 as [p|p q r Hstep _ [IHl IHr]]; [done|].
  destruct (step_sets p q Hstep) as [Hl Hr].
  split; intros Hin; [apply IHl, Hl, Hin|apply IHr, Hr, Hin].
Qed.

Lemma two_sources_initial t : two_sources (initial t).
Proof.
  split; [by apply Forall_nil|].
  intros item Hin. left. by apply initial_blur.
Qed.

Lemma two_sources_onload k item oe p :
  two_sources p → loading p !! k = Some (item, oe) →
  two_sources (onload item oe (set_loading (delete k (loading p)) p)).
Proof.
  intros [Hload Hsrc] Hk.
  assert (item ∈ gallery) as Hitem.
  { apply (Forall_lookup_1 _ _ _ _ Hload Hk). }
  split.
  - destruct (onload_frame item oe (set_loading (delete k (loading p)) p))
      as (_ & _ & ->).
    simpl. by apply Forall_delete.
  - intros item' Hin. rewrite onload_imageSrc. simpl.
    destruct (decide (Item.id item = Item.id item')) as [Heq|Hne].
    + right. rewrite (gallery_ids item item' Hitem Hin Heq).
      apply lookup_insert_eq.
    + rewrite lookup_insert_ne by done. by apply Hsrc.
Qed.

Lemma two_sources_step p p' : step p p' → two_sources p → two_sources p'.
Proof.
  destruct 1 as [e id p|item oe p Hitem|k p|id oe p|s p|x p|t p];
    intros [Hload Hsrc]; try done.
  - unfold loadFull. destruct (decide _); [done|].
    split; [|done]. simpl. apply Forall_app. split; [done|].
    by apply Forall_singleton.
  - unfold image_loaded.
    destruct (loading p !! k) as [[item oe]|] eqn:Hk; [|done].
    by apply two_sources_onload.
  - destruct (markRevealed_frame id oe p) as (Hi & _ & Hl & _).
    split; [by rewrite Hl|]. by rewrite Hi.
Qed.

Lemma two_sources_run p p' : rtc step p p' → two_sources p → two_sources p'.
Proof. induction 1; eauto using two_sources_step. Qed.

Lemma full_step p p' item :
  step p p' → two_sources p → item ∈ gallery →
  imageSrc p !! Item.id item = Some (Item.full item) →
  imageSrc p' !! Item.id item = Some (Item.full item).
Proof.
  destruct 1 as [e id p|item' oe p Hitem|k p|id oe p|s p|x p|t p];
    intros [Hload Hsrc] Hin Hfull; try done.
  - unfold loadFull. by destruct (decide _).
  - unfold image_loaded.
    destruct (loading p !! k) as [[item' oe]|] eqn:Hk; [|done].
    rewrite onload_imageSrc. simpl.
    destruct (decide (Item.id item' = Item.id item)) as [Heq|Hne].
    + assert (item' ∈ gallery) as Hitem'.
      { apply (Forall_lookup_1 _ _ _ _ Hload Hk). }
      rewrite (gallery_ids item' item Hitem' Hin Heq).
      apply lookup_insert_eq.
    + by rewrite lookup_insert_ne.
  - by destruct (markRevealed_frame id oe p) as (-> & _).
Qed.

Lemma full_run p p' item :
  rtc step p p' → two_sources p → item ∈ gallery →
  imageSrc p !! Item.id item = Some (Item.full item) →
  imageSrc p' !! Item.id item = Some (Item.full item).
Proof.
  induction 1 as [p|p q r Hstep _ IH]; [done|].
  intros Hp Hin Hfull.
  apply IH; eauto using two_sources_step, full_step.
Qed.

(** C6.  For a card of the gallery, on any page a run from the initial
    page reaches: [imageSrc] started at the card's placeholder; it holds
    the placeholder or the full-resolution address and nothing else; it
    can still reach the full-resolution address; and once it holds the
    full-resolution address it holds it after every further run.  So its
    value changes at most once. *)
Theorem imageSrc_changes_once t p item :
  rtc step (initial t) p → item ∈ gallery →
  imageSrc (initial t) !! Item.id item = Some (Item.blur item)
  ∧ (imageSrc p !! Item.id item = Some (Item.blur item)
     ∨ imageSrc p !! Item.id item = Some (Item.full item))
  ∧ (∃ p', rtc step p p'
           ∧ imageSrc p' !! Item.id item = Some (Item.full item))
  ∧ (∀ p', rtc step p p' →
           imageSrc p !! Item.id item = Some (Item.full item) →
           imageSrc p' !! Item.id item = Some (Item.full item)).
Proof.
  intros Hrun Hin.
  pose proof (two_sources_run _ _ Hrun (two_sources_initial t)) as Hp.
  split_and!.
  - by apply initial_blur.
  - by apply Hp.
  - destruct (decide (imageSrc p !! Item.id item = Some (Item.full item)))
      as [Hfull|Hnot].
    + by exists p.
    + exists (image_loaded (length (loading p)) (loadFull item None p)).
      split.
      * eapply rtc_l; [by apply (step_loadFull item None)|].
        apply rtc_once, step_image_loaded.
      * unfold image_loaded. rewrite loadFull_loading.
        unfold started_by. rewrite decide_False by done.
        rewrite list_lookup_middle by done.
        rewrite onload_imageSrc. apply lookup_insert_eq.
  - intros p' Hrun' Hfull. by apply (full_run p p').
Qed.

(** C10.  [markRevealed] on an id that is in [revealed] already, with an
    entry or without, returns the page as it was: no set grows, no
    record is logged. *)
Theorem markRevealed_again id oe p :
  id ∈ revealed p → markRevealed id oe p = p.
Proof. intros Hin. unfold markRevealed. by rewrite decide_True. Qed.

Lemma started_same shot entries p q :
  imageSrc q = imageSrc p → started shot entries q = started shot entries p.
Proof. unfold started. by intros ->. Qed.

Lemma gallery_batch shot p0 entries p :
  rendered (fold_left (λ w c, invoke (params_of (GalleryCard shot) p0) c w)
              (invocations entries) p) = rendered p
  ∧ loading (fold_left (λ w c, invoke (params_of (GalleryCard shot) p0) c w)
               (invocations entries) p) = loading p ++ started shot entries p.
Proof.
  revert p. unfold invocations.
  induction entries as [|e es IH]; intros p; cbn [map fold_left].
  - split; [done|]. unfold started.
    destruct (decide _); by rewrite app_nil_r.
  - destruct (IH (invoke (params_of (GalleryCard shot) p0)
                    (if isIntersecting e then Entered e else Left e) p))
      as [Hr Hl].
    rewrite Hr, Hl. clear IH Hr Hl.
    destruct (isIntersecting e) eqn:He; simpl.
    + destruct (loadFull_frame shot (Some e) p) as (Hr & _).
      rewrite loadFull_loading.
      rewrite (started_same shot es p) by (by inversion Hr).
      split; [done|]. rewrite <- app_assoc. f_equal.
      unfold started_by, started.
      destruct (decide _); [done|].
      simpl. rewrite filter_cons, decide_True by done. done.
    + split; [done|]. f_equal. unfold started.
      destruct (decide _); [done|].
      rewrite filter_cons, decide_False; [done|].
      rewrite He. done.
Qed.

Lemma other_batch a p0 entries p :
  (∀ shot, a ≠ GalleryCard shot) →
  loading (fold_left (λ w c, invoke (params_of a p0) c w)
             (invocations entries) p) = loading p.
Proof.
  intros Ha. revert p. unfold invocations.
  induction entries as [|e es IH]; intros p; cbn [map fold_left]; [done|].
  rewrite IH. clear IH.
  destruct a as [s|shot|id|id]; [|by destruct (Ha shot)|..];
    destruct (isIntersecting e); simpl; try done.
  by destruct (markRevealed_frame id (Some e) p) as (_ & _ & -> & _).
Qed.

(** C7 (amended).  On a batch for a gallery card the observer callback
    changes nothing of what the page renders: it only starts the image
    loads, and each load changes [imageSrc] and [loadedImages] and logs
    its record later, when its [onload] handler runs.  On a batch for any
    other attachment (a nav section, a reveal block, a scroll-spy
    article) the callback starts no load, so whatever it changes it has
    changed when it returns. *)
Theorem reactions_to_a_batch (st : State Page) a p0 entries :
  current st = params_of a p0 →
  let p := world st in
  let p' := world (callback entries st) in
  (∀ shot, a = GalleryCard shot →
     rendered p' = rendered p
     ∧ loading p' = loading p ++ started shot entries p
     ∧ (∀ k item oe, loading p' !! k = Some (item, oe) →
          imageSrc (image_loaded k p')
          = <[Item.id item := Item.full item]> (imageSrc p')
          ∧ loadedImages (image_loaded k p')
            = loadedImages p' ∪ {[Item.id item]}
          ∧ logs (image_loaded k p')
            = match oe with
              | Some e => take 10 (record_of (clock p') e (Item.id item)
                                   :: logs p')
              | None => logs p'
              end))
  ∧ ((∀ shot, a ≠ GalleryCard shot) → loading p' = loading p).
Proof.
  intros Hc p p'. subst p p'. rewrite callback_world, Hc. split.
  - intros shot ->.
    destruct (gallery_batch shot p0 entries (world st)) as [Hr Hl].
    split_and!; [done..|].
    intros k item oe Hk. unfold image_loaded. rewrite Hk.
    rewrite onload_imageSrc, onload_loadedImages.
    split_and!; [done|done|by destruct oe].
  - intros Ha. by apply other_batch.
Qed.

End PageFacts.

(** C7 as worded fails.  The card [aurora] scrolls into view on the
    initial page: when the observer callback returns, the page renders
    what it rendered before and one image is in flight; the picture, the
    loaded mark and the log record change when that image has loaded. *)
Lemma reacts_within_callback_fails :
  (∃ st,
    intersect thresholds_in_range 7
      (params_of (GalleryCard aurora) (initial "12:00:00")) (initial "12:00:00")
    = Some st
    ∧ rendered (world (callback [came_into_view] st))
      = rendered (initial "12:00:00")
    ∧ loading (world (callback [came_into_view] st))
      = [(aurora, Some came_into_view)]
    ∧ imageSrc (world (callback [came_into_view] st)) !! "aurora"
      = Some (Item.blur aurora)
    ∧ imageSrc (image_loaded 0 (world (callback [came_into_view] st))) !! "aurora"
      = Some (Item.full aurora)
    ∧ logs (image_loaded 0 (world (callback [came_into_view] st)))
      = [LogEntry.mk "aurora" (of_Z 1) enter "12:00:00"])
  ∧ ¬ reacts_within_callback thresholds_in_range.
Proof.
  assert (∃ st,
    intersect thresholds_in_range 7
      (params_of (GalleryCard aurora) (initial "12:00:00")) (initial "12:00:00")
    = Some st
    ∧ rendered (world (callback [came_into_view] st))
      = rendered (initial "12:00:00")
    ∧ loading (world (callback [came_into_view] st))
      = [(aurora, Some came_into_view)]
    ∧ imageSrc (world (callback [came_into_view] st)) !! "aurora"
      = Some (Item.blur aurora)
    ∧ imageSrc (image_loaded 0 (world (callback [came_into_view] st))) !! "aurora"
      = Some (Item.full aurora)
    ∧ logs (image_loaded 0 (world (callback [came_into_view] st)))
      = [LogEntry.mk "aurora" (of_Z 1) enter "12:00:00"]) as Hrun.
  { eexists. split; [reflexivity|]. split_and!; vm_compute; reflexivity. }
  split; [exact Hrun|].
  intros H. destruct Hrun as (st & Hst & _ & _ & Hblur & Hfull & _).
  specialize (H (GalleryCard aurora) 7 (initial "12:00:00") st
                [came_into_view] 0 eq_refl Hst).
  assert (imageSrc (image_loaded 0 (world (callback [came_into_view] st)))
          = imageSrc (world (callback [came_into_view] st))) as Hsame.
  { exact (f_equal (λ r, r.1.1.1.2) H). }
  rewrite Hsame, Hblur in Hfull. discriminate Hfull.
Qed.

(** C2 as worded fails.  An action attached with element 3 as its root is
    updated with [root: null]: the new observer's root is still element 3,
    not the viewport. *)
Lemma given_root_takes_effect_fails :
  (∃ st st' ob,
    intersect thresholds_in_range 1 rooted_at_3 () = Some st
    ∧ root root_null = Val None
    ∧ update thresholds_in_range root_null st = Returned st'
    ∧ observer st' = Some 1
    ∧ platform st' !! 1 = Some ob
    ∧ targets ob = {[1]}
    ∧ Init.root (options ob) = Some 3)
  ∧ ¬ given_root_takes_effect thresholds_in_range.
Proof.
  assert (∃ st st' ob,
    intersect thresholds_in_range 1 rooted_at_3 () = Some st
    ∧ root root_null = Val None
    ∧ update thresholds_in_range root_null st = Returned st'
    ∧ observer st' = Some 1
    ∧ platform st' !! 1 = Some ob
    ∧ targets ob = {[1]}
    ∧ Init.root (options ob) = Some 3) as Hrun.
  { do 3 eexists. split; [reflexivity|]. split; [reflexivity|].
    split; [reflexivity|]. split; [reflexivity|]. split; [reflexivity|].
    split; vm_compute; reflexivity. }
  split; [exact Hrun|].
  intros H. destruct Hrun as (st & st' & ob & Hst & Hroot & Hup & Ho & Hl & _ & Hr).
  assert (attached thresholds_in_range st) as Hat.
  { exists 1, rooted_at_3, (), st. split; [done|apply rtc_refl]. }
  specialize (H st st' root_null None 1 ob Hat Hroot Hup Ho Hl).
  rewrite Hr in H. discriminate H.
Qed.


(** * The theorems at sample inputs *)

(** The dispatch rule on [attached_once] and a batch of two entries. *)
Lemma callback_dispatches_batch_witness :
  truthy (once (current attached_once)) = true
  ∧ came_into_view ∈ [came_into_view; went_out_of_view]
  ∧ world (callback [came_into_view; went_out_of_view] attached_once)
    = [Entered came_into_view; Left went_out_of_view]
  ∧ target came_into_view
    ∉ watched (callback [came_into_view; went_out_of_view] attached_once).
Proof.
  assert (came_into_view ∈ [came_into_view; went_out_of_view]) as Hin.
  { apply list_elem_of_here. }
  destruct (callback_dispatches_batch attached_once
              [came_into_view; went_out_of_view]) as (Hw & _ & _ & _ & Honce).
  split; [reflexivity|]. split; [exact Hin|]. split; [exact Hw|].
  exact (proj1 (Honce eq_refl came_into_view Hin eq_refl)).
Defined.

(** [update] with [half_threshold] on [attached_once]. *)
Lemma update_recreates_observer_witness :
  ∃ st',
    update thresholds_in_range half_threshold attached_once = Returned st'
    ∧ observer st' = Some 1
    ∧ Init.threshold (opts st') = Num (1 # 2)
    ∧ Init.rootMargin (opts st') = "0px"
    ∧ once (current st') = Val true.
Proof.
  eexists. split; [reflexivity|].
  match goal with
  | |- observer ?s = _ ∧ _ =>
      destruct (update_recreates_observer thresholds_in_range half_threshold
                  attached_once s eq_refl)
        as (_ & Ho & _ & _ & _ & _ & (_ & Hm) & (Ht & _) & _ & _ & _ & (Hon & _) & _)
  end.
  split; [exact Ho|]. split; [exact (Ht _ eq_refl)|].
  split; [exact (Hm (or_introl eq_refl))|]. exact (Hon eq_refl).
Defined.

(** Twelve calls of [note] on the initial page. *)
Lemma logs_at_most_10_witness :
  logs (initial "12:00:00") = []
  ∧ length (logs (notes (take 12 twelve_notes) (initial "12:00:00"))) ≤ 10.
Proof.
  split; [reflexivity|].
  apply (logs_at_most_10 twelve_notes (initial "12:00:00")). reflexivity.
Defined.

(** A revealed block stays revealed through a call of [note]. *)
Lemma membership_is_final_witness :
  rtc step (markRevealed "cleanup" None (initial "12:00:00"))
    (note came_into_view "use-case-1"
       (markRevealed "cleanup" None (initial "12:00:00")))
  ∧ "cleanup" ∈ revealed (markRevealed "cleanup" None (initial "12:00:00"))
  ∧ "cleanup" ∈ revealed (note came_into_view "use-case-1"
                            (markRevealed "cleanup" None (initial "12:00:00"))).
Proof.
  assert (rtc step (markRevealed "cleanup" None (initial "12:00:00"))
            (note came_into_view "use-case-1"
               (markRevealed "cleanup" None (initial "12:00:00")))) as Hrun.
  { apply rtc_once, step_note. }
  assert ("cleanup" ∈ revealed (markRevealed "cleanup" None (initial "12:00:00")))
    as Hin.
  { apply elem_of_union_r, elem_of_singleton. reflexivity. }
  split; [exact Hrun|]. split; [exact Hin|].
  exact (proj2 (membership_is_final _ _ "cleanup" Hrun) Hin).
Defined.

(** The card [aurora], loaded once from the initial page. *)
Lemma imageSrc_changes_once_witness :
  rtc step (initial "12:00:00")
    (image_loaded 0 (loadFull aurora None (initial "12:00:00")))
  ∧ aurora ∈ gallery
  ∧ imageSrc (initial "12:00:00") !! "aurora" = Some (Item.blur aurora)
  ∧ (imageSrc (image_loaded 0 (loadFull aurora None (initial "12:00:00")))
       !! "aurora" = Some (Item.blur aurora)
     ∨ imageSrc (image_loaded 0 (loadFull aurora None (initial "12:00:00")))
       !! "aurora" = Some (Item.full aurora)).
Proof.
  assert (aurora ∈ gallery) as Hin.
  { apply list_elem_of_here. }
  assert (rtc step (initial "12:00:00")
            (image_loaded 0 (loadFull aurora None (initial "12:00:00")))) as Hrun.
  { eapply rtc_l; [exact (step_loadFull aurora None _ Hin)|].
    apply rtc_once, step_image_loaded. }
  destruct (imageSrc_changes_once "12:00:00" _ aurora Hrun Hin)
    as (H0 & H1 & _ & _).
  split; [exact Hrun|]. split; [exact Hin|]. split; [exact H0|exact H1].
Defined.

(** The card [aurora] comes into view on the initial page: nothing
    rendered changes in the callback, and the record is logged when the
    image has loaded. *)
Lemma reactions_to_a_batch_witness :
  ∃ st,
    intersect thresholds_in_range 7
      (params_of (GalleryCard aurora) (initial "12:00:00"))
      (initial "12:00:00") = Some st
    ∧ current st = params_of (GalleryCard aurora) (initial "12:00:00")
    ∧ rendered (world (callback [came_into_view] st)) = rendered (world st)
    ∧ loading (world (callback [came_into_view] st))
      = loading (world st) ++ started aurora [came_into_view] (world st)
    ∧ loading (world (callback [came_into_view] st)) !! 0
      = Some (aurora, Some came_into_view)
    ∧ logs (image_loaded 0 (world (callback [came_into_view] st)))
      = take 10 (record_of (clock (world (callback [came_into_view] st)))
                   came_into_view (Item.id aurora)
                 :: logs (world (callback [came_into_view] st))).
Proof.
  eexists. split; [reflexivity|]. split; [reflexivity|].
  match goal with
  | |- rendered (world (callback _ ?s)) = _ ∧ _ =>
      pose proof (reactions_to_a_batch s (GalleryCard aurora)
                    (initial "12:00:00") [came_into_view] eq_refl) as H
  end.
  destruct H as [H _]. specialize (H aurora eq_refl).
  destruct H as (Hr & Hl & Hlater).
  split; [exact Hr|]. split; [exact Hl|].
  match goal with
  | |- ?l !! 0 = _ ∧ _ =>
      assert (l !! 0 = Some (aurora, Some came_into_view)) as Hk
        by (vm_compute; reflexivity)
  end.
  split; [exact Hk|].
  exact (proj2 (proj2 (Hlater 0 aurora (Some came_into_view) Hk))).
Defined.

(** [destroy] after one batch on [attached_once]. *)
Lemma destroy_stops_watching_witness :
  attached thresholds_in_range (callback [went_out_of_view] attached_once)
  ∧ watched (callback [went_out_of_view] attached_once) = {[7]}
  ∧ ∀ o, watched_by o (destroy (callback [went_out_of_view] attached_once)) = ∅.
Proof.
  assert (attached thresholds_in_range (callback [went_out_of_view] attached_once))
    as Hat.
  { exists 7, (recording (Val true)), [], attached_once.
    split; [reflexivity|]. apply rtc_once, action_callback. }
  split; [exact Hat|]. split; [vm_compute; reflexivity|].
  exact (proj1 (destroy_stops_watching thresholds_in_range _ Hat)).
Defined.

(** [intersect] with parameters that hold no option of the observer. *)
Lemma intersect_defaults_witness :
  intersect thresholds_in_range 7 (recording (Val true)) [] = Some attached_once
  ∧ ∃ ob,
      observer attached_once = Some 0 ∧ platform attached_once = [ob]
      ∧ targets ob = {[7]}
      ∧ (root (recording (Val true)) = Missing → Init.root (options ob) = None)
      ∧ (rootMargin (recording (Val true)) = Missing →
         Init.rootMargin (options ob) = "0px")
      ∧ (threshold (recording (Val true)) = Missing →
         Init.threshold (options ob) = Num (1 # 4)).
Proof.
  split; [reflexivity|].
  apply (intersect_defaults thresholds_in_range 7 (recording (Val true)) []).
  reflexivity.
Defined.

(** The block [cleanup], revealed twice. *)
Lemma markRevealed_again_witness :
  "cleanup" ∈ revealed (markRevealed "cleanup" None (initial "12:00:00"))
  ∧ markRevealed "cleanup" (Some came_into_view)
      (markRevealed "cleanup" None (initial "12:00:00"))
    = markRevealed "cleanup" None (initial "12:00:00").
Proof.
  assert ("cleanup" ∈ revealed (markRevealed "cleanup" None (initial "12:00:00")))
    as Hin.
  { apply elem_of_union_r, elem_of_singleton. reflexivity. }
  split; [exact Hin|].
  exact (markRevealed_again "cleanup" (Some came_into_view) _ Hin).
Defined.

(** An entry whose ratio is the double 0.015: the product with 100 is
    exactly one and a half, and the ratio logged is the double 0.02. *)
Lemma note_newest_first_witness :
  value (fmul (intersectionRatio barely_visible) (of_Z 100))
  = Some (exact false 6755399441055744 (-52))
  ∧ (inject_Z 2 - (1 # 2) <= exact false 6755399441055744 (-52))%Q
  ∧ (exact false 6755399441055744 (-52) < inject_Z 2 + (1 # 2))%Q
  ∧ ∃ r,
      logs (note barely_visible "use-case-1" (initial "12:00:00"))
      = r :: take 9 (logs (initial "12:00:00"))
      ∧ LogEntry.ratio r = fdiv (of_Z 2) (of_Z 100)
      ∧ fdiv (of_Z 2) (of_Z 100) = ratio_0_02.
Proof.
  assert (value (fmul (intersectionRatio barely_visible) (of_Z 100))
          = Some (exact false 6755399441055744 (-52))) as Hv.
  { vm_compute. reflexivity. }
  assert (inject_Z 2 - (1 # 2) <= exact false 6755399441055744 (-52))%Q as Hle.
  { vm_compute. discriminate. }
  assert (exact false 6755399441055744 (-52) < inject_Z 2 + (1 # 2))%Q as Hlt.
  { vm_compute. reflexivity. }
  split; [exact Hv|]. split; [exact Hle|]. split; [exact Hlt|].
  destruct (note_newest_first barely_visible "use-case-1" (initial "12:00:00"))
    as (r & Hlogs & _ & _ & _ & _ & _ & _ & Hround).
  exists r. split; [exact Hlogs|].
  destruct (Hround _ 2%Z Hv Hle Hlt) as [Hnz _].
  split; [apply Hnz; discriminate|].
  vm_compute. reflexivity.
Defined.

(** * Further properties of the action *)

Section ActionMore.
Context {W : Type} (accepts : Init.t → bool).
Implicit Types (st : State W) (entry : IntersectionObserverEntry).
Implicit Types (entries : list IntersectionObserverEntry).
Implicit Types (params next : IntersectionParams W).

Lemma update_reassigned next st :
  update accepts next st = init accepts (reassigned next st).
Proof. reflexivity. Qed.

Lemma init_vars st :
  node (state_of (init accepts st)) = node st
  ∧ opts (state_of (init accepts st)) = opts st
  ∧ current (state_of (init accepts st)) = current st
  ∧ world (state_of (init accepts st)) = world st.
Proof. unfold init. by destruct (accepts (opts st)). Qed.

Lemma on_observer_length f st :
  length (on_observer f st) = length (platform st).
Proof. unfold on_observer. destruct (observer st); [apply length_alter|done]. Qed.

Lemma init_returned st st' :
  init accepts st = Returned st' →
  accepts (opts st) = true
  ∧ st' = {| node := node st; opts := opts st; current := current st;
             observer := Some (length (platform st));
             platform := on_observer disconnect st
                         ++ [{| options := opts st; targets := ∅ ∪ {[node st]} |}];
             world := world st |}.
Proof.
  unfold init. destruct (accepts (opts st)); [|done].
  intros [= <-]. by rewrite on_observer_length.
Qed.

Lemma init_thrown st st' :
  init accepts st = Thrown st' →
  accepts (opts st) = false ∧ st' = set_platform (on_observer disconnect st) st.
Proof.
  unfold init. destruct (accepts (opts st)); [done|]. by intros [= <-].
Qed.

Lemma on_entry_length st entry :
  length (platform (on_entry st entry)) = length (platform st).
Proof.
  unfold on_entry. destruct (isIntersecting entry); [|done].
  destruct (truthy _); [|done].
  simpl. unfold on_observer. simpl.
  destruct (observer st); [apply length_alter|done].
Qed.

Lemma callback_length entries st :
  length (platform (callback entries st)) = length (platform st).
Proof.
  revert st. induction entries as [|e es IH]; intros st; [done|].
  change (length (platform (callback es (on_entry st e))) = length (platform st)).
  by rewrite IH, on_entry_length.
Qed.

Lemma on_entry_live st entry : live accepts st → live accepts (on_entry st entry).
Proof.
  intros (o & ob & Ho & Hl & Ht & Hopt). unfold on_entry.
  destruct (isIntersecting entry); [|by exists o, ob].
  destruct (truthy _); [|by exists o, ob].
  exists o, (unobserve (target entry) ob). simpl.
  unfold on_observer. simpl. rewrite Ho.
  rewrite list_lookup_alter_eq, Hl. simpl.
  split_and!; [done|done|set_solver|done].
Qed.

Lemma live_step st st' : action_step accepts st st' → live accepts st → live accepts st'.
Proof.
  intros Hstep Hlive. destruct Hstep as [next st|es st|st|w st].
  - destruct Hlive as (o & ob & Ho & Hl & _).
    rewrite update_reassigned.
    destruct (init accepts (reassigned next st)) as [st'|st'] eqn:Hinit; simpl.
    + apply init_returned in Hinit as (Hacc & ->). simpl.
      eexists _, _. split; [reflexivity|]. simpl.
      rewrite <- (on_observer_length disconnect (reassigned next st)) at 1.
      rewrite list_lookup_middle by done.
      split; [reflexivity|]. simpl. split; [set_solver|done].
    + apply init_thrown in Hinit as (Hacc & ->).
      exists o, (disconnect ob). simpl. unfold on_observer. simpl. rewrite Ho.
      rewrite list_lookup_alter_eq, Hl. simpl.
      split_and!; [done|done|set_solver|]. intros Hyes.
      assert (true = false) as Hno by (rewrite <- Hyes; exact Hacc).
      discriminate Hno.
  - clear -Hlive. revert st Hlive.
    induction es as [|e es IH]; intros st Hlive; [done|].
    apply IH, on_entry_live, Hlive.
  - destruct Hlive as (o & ob & Ho & Hl & Ht & Hopt).
    exists o, (disconnect ob). simpl. unfold on_observer. rewrite Ho.
    rewrite list_lookup_alter_eq, Hl. simpl.
    split_and!; [done|done|set_solver|done].
  - done.
Qed.

Lemma live_intersect n params w st :
  intersect accepts n params w = Some st → live accepts st ∧ node st = n.
Proof.
  unfold intersect.
  match goal with
  | |- match init _ ?s with _ => _ end = _ → _ =>
      destruct (init accepts s) as [st'|st'] eqn:Hinit
  end; [|done].
  intros [= <-]. apply init_returned in Hinit as (Hacc & ->). simpl.
  split; [|done].
  exists 0, {| options := Init.mk (coalesce_null (root params) None)
                            (coalesce (rootMargin params) "0px")
                            (coalesce (threshold params) (Num (1 # 4)));
               targets := ∅ ∪ {[n]} |}.
  simpl. split_and!; [done|done|set_solver|done].
Qed.

Lemma step_node st st' : action_step accepts st st' → node st' = node st.
Proof.
  destruct 1 as [next st|es st|st|w st]; try done.
  - rewrite update_reassigned.
    by destruct (init_vars (reassigned next st)) as (-> & _).
  - by destruct (callback_vars es st) as (-> & _).
Qed.

Lemma live_run st st' :
  rtc (action_step accepts) st st' →
  live accepts st → live accepts st' ∧ node st' = node st.
Proof.
  induction 1 as [st|st1 st2 st3 Hstep _ IH]; [done|].
  intros Hlive. destruct (IH (live_step _ _ Hstep Hlive)) as [? ->].
  split; [done|]. by apply step_node.
Qed.

(** X1.  From [intersect] on, whatever [update], [destroy] and the
    batches do, the action keeps the node it was attached to, its variable
    [observer] names an observer it has built, that observer watches
    nothing but the node, and no other observer it has built watches
    anything. *)
Theorem attached_watches_own_node n params w st0 st :
  intersect accepts n params w = Some st0 →
  rtc (action_step accepts) st0 st →
  node st = n
  ∧ ∃ o, observer st = Some o
         ∧ o < length (platform st)
         ∧ watched st ⊆ {[n]}
         ∧ ∀ o', o' ≠ o → watched_by o' st = ∅.
Proof.
  intros Hst0 Hrun.
  destruct (live_intersect _ _ _ _ Hst0) as [Hlive0 Hn0].
  destruct (live_run _ _ Hrun Hlive0) as [(o & ob & Ho & Hl & Ht & _) Hn].
  assert (tidy st) as Htidy.
  { apply (tidy_attached accepts). by exists n, params, w, st0. }
  split; [congruence|].
  exists o. split_and!; [done|by apply lookup_lt_Some in Hl| |].
  - unfold watched. rewrite Ho, Hl. by rewrite Hn, Hn0 in Ht.
  - intros o' Hne. unfold watched_by.
    destruct (platform st !! o') as [ob'|] eqn:Hl'; [|done].
    apply (Htidy o' ob' Hl'). congruence.
Qed.

(** X2.  From [intersect] on, whenever the constructor accepts the
    options in [opts], the observer at hand was built with exactly those
    options: only an [update] the constructor turned down leaves the two
    apart. *)
Theorem attached_observer_runs_opts st :
  attached accepts st →
  accepts (opts st) = true →
  ∃ o ob, observer st = Some o ∧ platform st !! o = Some ob
          ∧ options ob = opts st.
Proof.
  intros (n & params & w & st0 & Hst0 & Hrun) Hacc.
  destruct (live_intersect _ _ _ _ Hst0) as [Hlive0 _].
  destruct (live_run _ _ Hrun Hlive0) as [(o & ob & Ho & Hl & _ & Hopt) _].
  exists o, ob. auto.
Qed.

Lemma on_entry_watched_exactly st entry :
  watched (on_entry st entry)
  = if truthy (once (current st)) && isIntersecting entry
    then watched st ∖ {[target entry]} else watched st.
Proof.
  unfold on_entry. destruct (isIntersecting entry).
  - change (current (set_world (call (onEnter (current st)) entry (world st)) st))
      with (current st).
    destruct (truthy (once (current st))); [|done].
    by rewrite watched_unobserve.
  - by rewrite andb_false_r.
Qed.

(** X3.  A batch changes what the action watches in one way only: with
    [once] set it stops watching the targets of the intersecting entries,
    and otherwise it leaves the watched set as it was. *)
Theorem callback_watched_exactly entries st :
  watched (callback entries st)
  = if truthy (once (current st)) then watched st ∖ entered entries
    else watched st.
Proof.
  revert st. induction entries as [|e es IH]; intros st.
  - unfold entered. simpl. destruct (truthy _); set_solver.
  - change (watched (callback es (on_entry st e))
            = if truthy (once (current st)) then watched st ∖ entered (e :: es)
              else watched st).
    rewrite IH, on_entry_watched_exactly.
    destruct (on_entry_vars st e) as (_ & _ & -> & _).
    destruct (truthy (once (current st))); simpl; [|done].
    unfold entered.
    destruct (isIntersecting e) eqn:He; simpl.
    + rewrite filter_cons, decide_True by done.
      rewrite fmap_cons, list_to_set_cons. set_solver.
    + rewrite filter_cons, decide_False by (by rewrite He). done.
Qed.

(** X4.  When the constructor turns the merged options down, [update]
    throws after it has overwritten [opts] and [current] and disconnected
    the observer at hand: no observer the action has built watches
    anything from then on, and no observer has been added. *)
Theorem update_rejected next st :
  attached accepts st →
  accepts (opts (reassigned next st)) = false →
  ∃ st', update accepts next st = Thrown st'
         ∧ (∀ o, watched_by o st' = ∅)
         ∧ observer st' = observer st
         ∧ length (platform st') = length (platform st)
         ∧ opts st' = opts (reassigned next st)
         ∧ current st' = spread_params (current st) next
         ∧ world st' = world st.
Proof.
  intros Hat Hrej. pose proof (tidy_attached accepts st Hat) as Htidy.
  rewrite update_reassigned. unfold init. rewrite Hrej.
  eexists. split; [reflexivity|]. simpl.
  split_and!; try done.
  - intros o. unfold watched_by, on_observer. simpl.
    destruct (observer st) as [o'|] eqn:Hobs.
    + destruct (decide (o' = o)) as [->|Hne].
      * rewrite list_lookup_alter_eq. by destruct (platform st !! o).
      * rewrite list_lookup_alter_ne by done.
        destruct (platform st !! o) as [ob|] eqn:Hl; [|done].
        apply (Htidy o ob Hl). congruence.
    + destruct (platform st !! o) as [ob|] eqn:Hl; [|done].
      apply (Htidy o ob Hl). congruence.
  - apply (on_observer_length disconnect (reassigned next st)).
Qed.

Lemma spread_assoc {A} (a b c : field A) :
  spread (spread a b) c = spread a (spread b c).
Proof. by destruct c. Qed.

(** X5.  Two calls of [update] leave in [current] what one call with
    [{ ...next1, ...next2 }] leaves; when the observer options of [next2]
    are each left out or given a value, they leave the same [opts] too. *)
Theorem update_twice next1 next2 st :
  current (state_of (update accepts next2 (state_of (update accepts next1 st))))
  = current (state_of (update accepts (spread_params next1 next2) st))
  ∧ (plain next2 →
     opts (state_of (update accepts next2 (state_of (update accepts next1 st))))
     = opts (state_of (update accepts (spread_params next1 next2) st))).
Proof.
  rewrite !update_reassigned.
  destruct (init_vars (reassigned next2 (state_of (init accepts (reassigned next1 st)))))
    as (_ & -> & -> & _).
  destruct (init_vars (reassigned (spread_params next1 next2) st))
    as (_ & -> & -> & _).
  simpl.
  destruct (init_vars (reassigned next1 st)) as (_ & -> & -> & _).
  simpl. split.
  - unfold spread_params. simpl. by rewrite !spread_assoc.
  - intros (Hr1 & Hr2 & Hm & Ht). f_equal.
    + destruct (root next2) as [| |[el|]]; try done.
      simpl. by destruct (root next1) as [| |[el|]], (Init.root (opts st)).
    + by destruct (rootMargin next2).
    + by destruct (threshold next2).
Qed.

(** X6.  [destroy] is idempotent: a second call changes nothing. *)
Theorem destroy_twice st : destroy (destroy st) = destroy st.
Proof.
  unfold destroy, set_platform. simpl. f_equal.
  unfold on_observer. simpl. destruct (observer st) as [o|]; [|done].
  rewrite list_alter_alter_eq. by apply list_alter_ext.
Qed.

End ActionMore.

(** * Further properties of the page *)

Section PageMore.
Implicit Types (p q : Page) (entry : IntersectionObserverEntry).
Implicit Types (item shot : Item.t) (id : string).

Lemma take_app_take {A} (n : nat) (l k : list A) :
  take n (l ++ take n k) = take n (l ++ k).
Proof.
  rewrite !take_app, take_take. do 2 f_equal. lia.
Qed.

Lemma note_logs entry id p :
  logs (note entry id p) = take 10 (record_of (clock p) entry id :: logs p).
Proof. reflexivity. Qed.

(** X7.  On a log of at most 10 records, after any sequence of calls to
    [note] the log holds the records of the calls, the latest first, in
    front of what it held before, cut to 10; each record carries the clock
    reading of its own call. *)
Theorem notes_log calls p :
  length (logs p) ≤ 10 →
  logs (notes calls p)
  = take 10 (rev (map (λ c, record_of c.1.1 c.1.2 c.2) calls) ++ logs p).
Proof.
  revert p. induction calls as [|[[t e] id] cs IH]; intros p Hp.
  - simpl. by rewrite take_ge.
  - change (notes ((t, e, id) :: cs) p)
      with (notes cs (note e id (set_clock t p))).
    rewrite IH by apply note_length.
    rewrite note_logs, take_app_take.
    cbn [map rev fst snd]. by rewrite <- app_assoc.
Qed.

Lemma step_logs p p' :
  step p p' → length (logs p) ≤ 10 → length (logs p') ≤ 10.
Proof.
  destruct 1 as [e id p|item oe p _|k p|id oe p|s p|x p|t p]; intros Hp;
    try done.
  - apply note_length.
  - unfold loadFull. by destruct (decide _).
  - unfold image_loaded. destruct (loading p !! k) as [[item [e|]]|]; try done.
    apply note_length.
  - unfold markRevealed. destruct (decide _); [done|].
    destruct oe; [apply note_length|done].
Qed.

(** X8.  The log never holds more than 10 records, whatever the page
    does: not only calls of [note] but every operation keeps the bound. *)
Theorem reachable_logs_at_most_10 p :
  reachable p → length (logs p) ≤ 10.
Proof.
  intros [t Hrun].
  assert (length (logs (initial t)) ≤ 10) as H0 by (simpl; lia).
  revert H0. induction Hrun; eauto using step_logs.
Qed.

Lemma loaded_shows_full_step p p' :
  step p p' → two_sources p → loaded_shows_full p → loaded_shows_full p'.
Proof.
  intros Hstep Hsrc Hp id Hin.
  assert (id ∈ loadedImages p →
          ∃ item, item ∈ gallery ∧ Item.id item = id
                  ∧ imageSrc p' !! id = Some (Item.full item)) as Hold.
  { intros Hin0. destruct (Hp id Hin0) as (item & Hg & <- & Hfull).
    exists item. split_and!; [done..|]. by apply (full_step p p'). }
  destruct Hstep as [e id' p|item oe p _|k p|id' oe p|s p|x p|t p];
    try (by apply Hold).
  - apply Hold. revert Hin. unfold loadFull. by destruct (decide _).
  - revert Hin Hold. unfold image_loaded.
    destruct (loading p !! k) as [[item oe]|] eqn:Hk; [|by auto].
    rewrite onload_loadedImages, onload_imageSrc. simpl.
    intros [Hin| ->%elem_of_singleton]%elem_of_union Hold; [by apply Hold|].
    exists item. split_and!; [|done|apply lookup_insert_eq].
    destruct Hsrc as [Hload _]. apply (Forall_lookup_1 _ _ _ _ Hload Hk).
  - apply Hold. by destruct (markRevealed_frame id' oe p) as (_ & <- & _).
Qed.

(** X9.  On every page a run can show, an id marked as loaded is the id
    of a card of the gallery, and that card shows its full-resolution
    picture. *)
Theorem loaded_image_shows_full p :
  reachable p → loaded_shows_full p.
Proof.
  intros [t Hrun].
  pose proof (two_sources_initial t) as Hsrc.
  assert (loaded_shows_full (initial t)) as H0.
  { intros id Hin. simpl in Hin. set_solver. }
  revert Hsrc H0.
  induction Hrun as [p|p q r Hstep _ IH]; intros Hsrc H0; [done|].
  apply IH; eauto using two_sources_step, loaded_shows_full_step.
Qed.

(** X10.  The key of a log row does not tell rows apart: two calls of
    [note] for the same id and the same direction at the same clock
    reading leave two rows with one key, whatever their ratios. *)
Theorem log_keys_collide entry1 entry2 id p :
  isIntersecting entry1 = isIntersecting entry2 →
  2 ≤ length (logs (note entry2 id (note entry1 id p)))
  ∧ ¬ NoDup (log_key <$> logs (note entry2 id (note entry1 id p))).
Proof.
  intros Hdir. rewrite !note_logs. simpl. split; [lia|].
  intros Hnd. apply NoDup_cons_1_1 in Hnd. apply Hnd.
  unfold log_key. simpl. rewrite Hdir. apply list_elem_of_here.
Qed.

Lemma image_loaded_middle l1 l2 item oe p :
  loading p = l1 ++ (item, oe) :: l2 →
  image_loaded (length l1) p = onload item oe (set_loading (l1 ++ l2) p).
Proof.
  intros Hl. unfold image_loaded. rewrite Hl.
  rewrite list_lookup_middle by done. by rewrite delete_middle.
Qed.

Lemma onload_logs item entry p :
  logs (onload item (Some entry) p)
  = take 10 (record_of (clock p) entry (Item.id item) :: logs p)
  ∧ clock (onload item (Some entry) p) = clock p.
Proof. done. Qed.

(** X11.  [loadFull] looks at the picture shown, not at the images in
    flight: called twice for a card that still shows its placeholder, it
    starts two loads, and when both have loaded the card is logged twice. *)
Theorem loadFull_twice_logs_twice item entry1 entry2 p :
  imageSrc p !! Item.id item ≠ Some (Item.full item) →
  let p2 := loadFull item (Some entry2) (loadFull item (Some entry1) p) in
  let k := length (loading p) in
  loading p2 = loading p ++ [(item, Some entry1); (item, Some entry2)]
  ∧ loading (image_loaded k (image_loaded k p2)) = loading p
  ∧ logs (image_loaded k (image_loaded k p2))
    = take 10 (record_of (clock p) entry2 (Item.id item)
               :: record_of (clock p) entry1 (Item.id item) :: logs p).
Proof.
  intros Hnot p2 k. subst p2 k.
  assert (loadFull item (Some entry2) (loadFull item (Some entry1) p)
          = set_loading (loading p ++ [(item, Some entry1); (item, Some entry2)]) p)
    as ->.
  { assert (loadFull item (Some entry1) p
            = set_loading (loading p ++ [(item, Some entry1)]) p) as ->.
    { unfold loadFull. by rewrite decide_False. }
    unfold loadFull. simpl. rewrite decide_False by done.
    unfold set_loading. simpl. by rewrite <- app_assoc. }
  split; [done|].
  set (q2 := set_loading
               (loading p ++ [(item, Some entry1); (item, Some entry2)]) p).
  rewrite (image_loaded_middle (loading p) [(item, Some entry2)] item
             (Some entry1) q2) by done.
  set (q3 := onload item (Some entry1)
               (set_loading (loading p ++ [(item, Some entry2)]) q2)).
  rewrite (image_loaded_middle (loading p) [] item (Some entry2) q3) by done.
  rewrite app_nil_r. split; [done|].
  destruct (onload_logs item entry2 (set_loading (loading p) q3)) as [-> _].
  change (take 10 (record_of (clock p) entry2 (Item.id item)
                   :: take 10 (record_of (clock p) entry1 (Item.id item) :: logs p))
          = take 10 (record_of (clock p) entry2 (Item.id item)
                     :: record_of (clock p) entry1 (Item.id item) :: logs p)).
  apply (take_app_take 10 [record_of (clock p) entry2 (Item.id item)]).
Qed.

(** X12.  [markRevealed] always leaves the id revealed, and a second call
    for the same id, with whatever entry, changes nothing. *)
Theorem markRevealed_twice id oe oe' p :
  id ∈ revealed (markRevealed id oe p)
  ∧ markRevealed id oe' (markRevealed id oe p) = markRevealed id oe p.
Proof.
  assert (id ∈ revealed (markRevealed id oe p)) as Hin.
  { unfold markRevealed. destruct (decide _); [done|].
    destruct oe; simpl; set_solver. }
  split; [done|]. unfold markRevealed at 1. by rewrite decide_True.
Qed.

End PageMore.

(** * What a batch does on each attachment *)

Section Attachments.
Implicit Types (st : State Page) (p q : Page) (id : string).
Implicit Types (entries : list IntersectionObserverEntry).

(** X13.  A batch for one of the five nav sections makes that section the
    active one when some entry of the batch is intersecting, and changes
    nothing at all when none is; the order and number of entries do not
    matter. *)
Theorem nav_batch st s p0 entries :
  current st = params_of (NavSection s) p0 →
  world (callback entries st)
  = if existsb isIntersecting entries then set_activeSection s (world st)
    else world st.
Proof.
  intros Hc. rewrite callback_world, Hc.
  generalize (world st) as p. unfold invocations.
  induction entries as [|e es IH]; intros p; cbn [map fold_left existsb]; [done|].
  rewrite IH. destruct (isIntersecting e); simpl; [|done].
  by destruct (existsb isIntersecting es).
Qed.

Lemma reveal_fold_revealed id p0 entries p :
  id ∈ revealed p →
  fold_left (λ w c, invoke (params_of (RevealBlock id) p0) c w)
    (invocations entries) p = p.
Proof.
  intros Hin. unfold invocations.
  induction entries as [|e es IH]; cbn [map fold_left]; [done|].
  destruct (isIntersecting e); simpl; [|exact IH].
  unfold markRevealed at 2. rewrite decide_True by done. exact IH.
Qed.

Lemma markRevealed_revealed id oe p : id ∈ revealed (markRevealed id oe p).
Proof.
  unfold markRevealed. destruct (decide _); [done|].
  destruct oe; simpl; set_solver.
Qed.

(** X14.  A batch for a reveal block acts as one call of [markRevealed]
    with the first intersecting entry of the batch: the other entries of
    the batch have no effect, and a batch without an intersecting entry,
    or for a block revealed already, changes nothing. *)
Theorem reveal_batch st id p0 entries :
  current st = params_of (RevealBlock id) p0 →
  world (callback entries st)
  = match head (filter (λ e, isIntersecting e = true) entries) with
    | Some e => markRevealed id (Some e) (world st)
    | None => world st
    end
  ∧ (id ∈ revealed (world st) → world (callback entries st) = world st).
Proof.
  intros Hc. rewrite callback_world, Hc.
  split; [|by apply reveal_fold_revealed].
  generalize (world st) as p. unfold invocations.
  induction entries as [|e es IH]; intros p; cbn [map fold_left]; [done|].
  destruct (isIntersecting e) eqn:He.
  - rewrite filter_cons, decide_True by done. simpl.
    apply (reveal_fold_revealed id p0 es), markRevealed_revealed.
  - rewrite filter_cons, decide_False by (by rewrite He). simpl. apply IH.
Qed.

Lemma spy_fold id p0 entries p :
  length (logs p) ≤ 10 →
  let p' := fold_left (λ w c, invoke (params_of (SpyArticle id) p0) c w)
              (invocations entries) p in
  logs p' = take 10 (rev (map (λ e, record_of (clock p) e id) entries) ++ logs p)
  ∧ activeSection p'
    = (if existsb isIntersecting entries then Spy else activeSection p)
  ∧ imageSrc p' = imageSrc p
  ∧ loadedImages p' = loadedImages p
  ∧ revealed p' = revealed p
  ∧ loading p' = loading p
  ∧ clock p' = clock p.
Proof.
  revert p. unfold invocations.
  induction entries as [|e es IH]; intros p Hp; cbn [map fold_left existsb rev].
  - simpl. by rewrite take_ge.
  - cbv zeta in IH.
    set (p1 := invoke (params_of (SpyArticle id) p0)
                 (if isIntersecting e then Entered e else Left e) p).
    assert (logs p1 = take 10 (record_of (clock p) e id :: logs p)
            ∧ activeSection p1 = (if isIntersecting e then Spy else activeSection p)
            ∧ imageSrc p1 = imageSrc p ∧ loadedImages p1 = loadedImages p
            ∧ revealed p1 = revealed p ∧ loading p1 = loading p
            ∧ clock p1 = clock p) as (Hl & Ha & Hi & Hld & Hr & Hlo & Hcl).
    { unfold p1. by destruct (isIntersecting e). }
    destruct (IH p1) as (IHl & IHa & IHi & IHld & IHr & IHlo & IHcl).
    { rewrite Hl, length_take. lia. }
    rewrite IHl, IHa, IHi, IHld, IHr, IHlo, IHcl, Hl, Ha, Hi, Hld, Hr, Hlo, Hcl.
    split_and!; try done.
    + rewrite take_app_take, <- app_assoc. done.
    + destruct (isIntersecting e); simpl; [|done].
      by destruct (existsb isIntersecting es).
Qed.

(** X15.  A batch for a scroll-spy article logs every entry of the batch,
    entering or leaving, the last entry first, and makes the spy section
    the active one when some entry is intersecting; it touches nothing
    else. *)
Theorem spy_batch st id p0 entries :
  current st = params_of (SpyArticle id) p0 →
  length (logs (world st)) ≤ 10 →
  logs (world (callback entries st))
  = take 10 (rev (map (λ e, record_of (clock (world st)) e id) entries)
             ++ logs (world st))
  ∧ activeSection (world (callback entries st))
    = (if existsb isIntersecting entries then Spy else activeSection (world st))
  ∧ imageSrc (world (callback entries st)) = imageSrc (world st)
  ∧ loadedImages (world (callback entries st)) = loadedImages (world st)
  ∧ revealed (world (callback entries st)) = revealed (world st)
  ∧ loading (world (callback entries st)) = loading (world st).
Proof.
  intros Hc Hp. rewrite callback_world, Hc.
  destruct (spy_fold id p0 entries (world st) Hp) as (? & ? & ? & ? & ? & ? & _).
  done.
Qed.

Lemma slider_values_in_range (v : Q) : v ∈ slider_values → in_range v = true.
Proof.
  unfold slider_values. cbn [seq map].
  rewrite !elem_of_cons, elem_of_nil.
  intros H. repeat (destruct H as [->|H]; [reflexivity|]). done.
Qed.

(** X16.  Every value of the slider is a threshold the constructor takes:
    when the slider moves, [update] on a reveal block does not throw; it
    leaves an observer with the new threshold watching the block, and the
    block's callback as it was. *)
Theorem slider_recreates_observer st id p0 p (v : Q) :
  current st = params_of (RevealBlock id) p0 →
  v ∈ slider_values →
  ∃ st',
    update thresholds_in_range
      (params_of (RevealBlock id) (set_revealThreshold v p)) st = Returned st'
    ∧ Init.threshold (opts st') = Num v
    ∧ Init.root (opts st') = Init.root (opts st)
    ∧ Init.rootMargin (opts st') = Init.rootMargin (opts st)
    ∧ current st' = params_of (RevealBlock id) (set_revealThreshold v p)
    ∧ watched st' = {[node st]}
    ∧ world st' = world st.
Proof.
  intros Hc Hv. apply slider_values_in_range in Hv.
  rewrite (update_reassigned thresholds_in_range).
  destruct (init thresholds_in_range
              (reassigned (params_of (RevealBlock id) (set_revealThreshold v p)) st))
    as [st'|st'] eqn:Hinit.
  - apply init_returned in Hinit as (_ & ->).
    eexists. split; [reflexivity|]. simpl.
    split_and!; try done.
    + by destruct (Init.root (opts st)).
    + unfold spread_params. rewrite Hc. reflexivity.
    + unfold watched. simpl.
      rewrite <- (on_observer_length disconnect
                    (reassigned (params_of (RevealBlock id)
                                   (set_revealThreshold v p)) st)) at 1.
      rewrite list_lookup_middle by done. simpl. set_solver.
  - apply init_thrown in Hinit as (Hrej & _).
    unfold thresholds_in_range in Hrej. simpl in Hrej. congruence.
Qed.

End Attachments.

(** * The observer of the top level *)

Section PreloadFacts.
Implicit Types (st : Preload.State) (entries : list IntersectionObserverEntry).

Lemma entered_cons e entries :
  entered (e :: entries)
  = if isIntersecting e then {[target e]} ∪ entered entries else entered entries.
Proof.
  unfold entered. destruct (isIntersecting e) eqn:He.
  - by rewrite filter_cons, decide_True, fmap_cons, list_to_set_cons.
  - by rewrite filter_cons, decide_False by (by rewrite He).
Qed.

Lemma preload_fields entries st :
  Preload.targets (Preload.callback entries st)
  = Preload.targets st ∖ entered entries
  ∧ Preload.images (Preload.callback entries st) = Preload.images st
  ∧ Preload.data_src (Preload.callback entries st) = Preload.data_src st
  ∧ (∀ t, Preload.src (Preload.callback entries st) !! t
          = if decide (t ∈ entered entries ∧ t ∈ Preload.images st)
            then Some (Preload.assigned (Preload.data_src st !! t))
            else Preload.src st !! t)
  ∧ (∀ t, Preload.own_src (Preload.callback entries st) !! t
          = if decide (t ∈ entered entries ∧ t ∉ Preload.images st)
            then Some (Preload.data_src st !! t)
            else Preload.own_src st !! t).
Proof.
  revert st. induction entries as [|e es IH]; intros st.
  - unfold entered. simpl. split_and!; [set_solver|done|done| |].
    + intros t. rewrite decide_False; [done|set_solver].
    + intros t. rewrite decide_False; [done|set_solver].
  - change (Preload.callback (e :: es) st)
      with (Preload.callback es (Preload.on_entry st e)).
    destruct (IH (Preload.on_entry st e)) as (Ht & Hi & Hd & Hs & Ho).
    rewrite Ht, Hi, Hd, entered_cons.
    assert (Preload.images (Preload.on_entry st e) = Preload.images st
            ∧ Preload.data_src (Preload.on_entry st e) = Preload.data_src st)
      as [Hi1 Hd1].
    { unfold Preload.on_entry.
      destruct (isIntersecting e); simpl; [|done]. by destruct (decide _). }
    split_and!; [|done|done| |].
    + unfold Preload.on_entry.
      destruct (isIntersecting e); simpl; [|done].
      destruct (decide _); simpl; set_solver.
    + intros t. rewrite Hs, Hi1, Hd1. unfold Preload.on_entry.
      destruct (isIntersecting e); simpl; [|done].
      destruct (decide (target e ∈ Preload.images st)) as [Himg|Himg]; simpl.
      * destruct (decide (t ∈ entered es ∧ t ∈ Preload.images st)) as [Hin|Hnot].
        -- rewrite decide_True by set_solver. done.
        -- destruct (decide (t = target e)) as [->|Hne].
           ++ rewrite decide_True by set_solver. by rewrite lookup_insert_eq.
           ++ rewrite decide_False by set_solver. by rewrite lookup_insert_ne.
      * destruct (decide (t ∈ entered es ∧ t ∈ Preload.images st)) as [Hin|Hnot].
        -- rewrite decide_True by set_solver. done.
        -- rewrite decide_False by set_solver. done.
    + intros t. rewrite Ho, Hi1, Hd1. unfold Preload.on_entry.
      destruct (isIntersecting e); simpl; [|done].
      destruct (decide (target e ∈ Preload.images st)) as [Himg|Himg]; simpl.
      * destruct (decide (t ∈ entered es ∧ t ∉ Preload.images st)) as [Hin|Hnot].
        -- rewrite decide_True by set_solver. done.
        -- rewrite decide_False by set_solver. done.
      * destruct (decide (t ∈ entered es ∧ t ∉ Preload.images st)) as [Hin|Hnot].
        -- rewrite decide_True by set_solver. done.
        -- destruct (decide (t = target e)) as [->|Hne].
           ++ rewrite decide_True by set_solver. by rewrite lookup_insert_eq.
           ++ rewrite decide_False by set_solver. by rewrite lookup_insert_ne.
Qed.


(** X19.  Running the top-level callback a second time on the same batch
    changes nothing: each image keeps the [src] the first run gave it. *)
Theorem preload_batch_twice entries st :
  Preload.callback entries (Preload.callback entries st)
  = Preload.callback entries st.
Proof.
  destruct (preload_fields entries st) as (Ht & Hi & Hd & Hs & Ho).
  destruct (preload_fields entries (Preload.callback entries st))
    as (Ht' & Hi' & Hd' & Hs' & Ho').
  assert (Preload.src (Preload.callback entries (Preload.callback entries st))
          = Preload.src (Preload.callback entries st)) as Hsrc.
  { apply map_eq. intros t. rewrite Hs', Hi, Hd, Hs.
    by destruct (decide (t ∈ entered entries ∧ t ∈ Preload.images st)). }
  assert (Preload.own_src (Preload.callback entries (Preload.callback entries st))
          = Preload.own_src (Preload.callback entries st)) as Hown.
  { apply map_eq. intros t. rewrite Ho', Hi, Hd, Ho.
    by destruct (decide (t ∈ entered entries ∧ t ∉ Preload.images st)). }
  assert (Preload.targets (Preload.callback entries (Preload.callback entries st))
          = Preload.targets (Preload.callback entries st)) as Htg.
  { rewrite Ht', Ht. set_solver. }
  destruct (Preload.callback entries (Preload.callback entries st)),
    (Preload.callback entries st).
  simpl in *. congruence.
Qed.

End PreloadFacts.

(** * A gallery card from first sight to loaded *)

(** X20.  A gallery card that shows its placeholder comes into view in a
    batch of one entry: when the callback returns the action watches
    nothing any more and one image load has started; when that image has
    loaded the card shows its full-resolution picture, is marked as
    loaded and has one new record at the head of the log, and no load of
    the batch is left in flight. *)
Theorem gallery_card_loads (st : State Page) shot p0 entry :
  current st = params_of (GalleryCard shot) p0 →
  watched st = {[node st]} →
  target entry = node st →
  isIntersecting entry = true →
  imageSrc (world st) !! Item.id shot ≠ Some (Item.full shot) →
  let st' := callback [entry] st in
  let p' := image_loaded (length (loading (world st))) (world st') in
  watched st' = ∅
  ∧ rendered (world st') = rendered (world st)
  ∧ loading (world st') = loading (world st) ++ [(shot, Some entry)]
  ∧ imageSrc p' !! Item.id shot = Some (Item.full shot)
  ∧ Item.id shot ∈ loadedImages p'
  ∧ logs p'
    = take 10 (record_of (clock (world st)) entry (Item.id shot)
               :: logs (world st))
  ∧ loading p' = loading (world st).
Proof.
  intros Hc Hw Ht Hi Hnot st' p'.
  assert (world st' = loadFull shot (Some entry) (world st)) as Hworld.
  { unfold st'. rewrite callback_world, Hc. simpl. by rewrite Hi. }
  assert (world st'
          = set_loading (loading (world st) ++ [(shot, Some entry)]) (world st))
    as Hworld'.
  { rewrite Hworld. unfold loadFull. by rewrite decide_False. }
  assert (watched st' = ∅) as Hnone.
  { unfold st'. change (callback [entry] st) with (on_entry st entry).
    rewrite on_entry_watched_exactly, Hc, Hi, Ht, Hw. simpl. set_solver. }
  assert (p' = onload shot (Some entry)
                 (set_loading (loading (world st) ++ []) (world st'))) as Hp'.
  { unfold p'. apply image_loaded_middle. by rewrite Hworld'. }
  split; [done|]. rewrite Hp'. rewrite Hworld'. simpl.
  split_and!; try done.
  - apply lookup_insert_eq.
  - set_solver.
  - by rewrite app_nil_r.
Qed.

(** * The further properties at sample inputs *)

(** An [update] and a batch after [intersect] on element 7. *)
Lemma attached_watches_own_node_witness :
  ∃ st0 st,
    intersect thresholds_in_range 7 (recording (Val true)) [] = Some st0
    ∧ rtc (action_step thresholds_in_range) st0 st
    ∧ node st = 7
    ∧ observer st = Some 1
    ∧ watched st = ∅.
Proof.
  eexists _, (callback [came_into_view] (state_of (update thresholds_in_range
                half_threshold attached_once))).
  assert (rtc (action_step thresholds_in_range) attached_once
            (callback [came_into_view]
               (state_of (update thresholds_in_range half_threshold attached_once))))
    as Hrun.
  { eapply rtc_l; [apply action_update|]. apply rtc_once, action_callback. }
  split; [reflexivity|]. split; [exact Hrun|].
  split; [exact (proj1 (attached_watches_own_node thresholds_in_range 7
                          (recording (Val true)) [] _ _ eq_refl Hrun))|].
  split; vm_compute; reflexivity.
Defined.

(** The observer of [attached_once] runs with its [opts]. *)
Lemma attached_observer_runs_opts_witness :
  attached thresholds_in_range attached_once
  ∧ thresholds_in_range (opts attached_once) = true
  ∧ ∃ o ob, observer attached_once = Some o
            ∧ platform attached_once !! o = Some ob
            ∧ options ob = opts attached_once.
Proof.
  assert (attached thresholds_in_range attached_once) as Hat.
  { exists 7, (recording (Val true)), [], attached_once.
    split; [reflexivity|apply rtc_refl]. }
  split; [exact Hat|]. split; [reflexivity|].
  exact (attached_observer_runs_opts thresholds_in_range attached_once Hat eq_refl).
Defined.

(** A threshold of 2 is out of range: the update of [attached_once] throws. *)
Lemma update_rejected_witness :
  attached thresholds_in_range attached_once
  ∧ thresholds_in_range
      (opts (reassigned
               {| threshold := Val (Num 2); root := Missing; rootMargin := Missing;
                  once := Missing; onEnter := Missing; onLeave := Missing |}
               attached_once)) = false
  ∧ ∃ st',
      update thresholds_in_range
        {| threshold := Val (Num 2); root := Missing; rootMargin := Missing;
           once := Missing; onEnter := Missing; onLeave := Missing |}
        attached_once = Thrown st'
      ∧ ∀ o, watched_by o st' = ∅.
Proof.
  assert (attached thresholds_in_range attached_once) as Hat.
  { exists 7, (recording (Val true)), [], attached_once.
    split; [reflexivity|apply rtc_refl]. }
  split; [exact Hat|]. split; [reflexivity|].
  destruct (update_rejected thresholds_in_range
              {| threshold := Val (Num 2); root := Missing; rootMargin := Missing;
                 once := Missing; onEnter := Missing; onLeave := Missing |}
              attached_once Hat eq_refl) as (st' & Hup & Hnone & _).
  exists st'. split; [exact Hup|exact Hnone].
Defined.

(** Two updates of [attached_once] with [half_threshold]. *)
Lemma update_twice_witness :
  plain half_threshold
  ∧ opts (state_of (update thresholds_in_range half_threshold
                      (state_of (update thresholds_in_range half_threshold
                                   attached_once))))
    = opts (state_of (update thresholds_in_range
                        (spread_params half_threshold half_threshold)
                        attached_once)).
Proof.
  assert (plain half_threshold) as Hplain.
  { unfold plain. simpl. split_and!; discriminate. }
  split; [exact Hplain|].
  exact (proj2 (update_twice thresholds_in_range half_threshold half_threshold
                  attached_once) Hplain).
Defined.

(** Twelve calls of [note] on the initial page. *)
Lemma notes_log_witness :
  length (logs (initial "12:00:00")) ≤ 10
  ∧ logs (notes twelve_notes (initial "12:00:00"))
    = take 10 (rev (map (λ c, record_of c.1.1 c.1.2 c.2) twelve_notes)
               ++ logs (initial "12:00:00")).
Proof.
  assert (length (logs (initial "12:00:00")) ≤ 10) as Hlen.
  { simpl. lia. }
  split; [exact Hlen|].
  exact (notes_log twelve_notes (initial "12:00:00") Hlen).
Defined.

(** The page after [aurora] has loaded can be shown. *)
Lemma reachable_logs_at_most_10_witness :
  reachable (image_loaded 0 (loadFull aurora (Some came_into_view)
                               (initial "12:00:00")))
  ∧ length (logs (image_loaded 0 (loadFull aurora (Some came_into_view)
                                    (initial "12:00:00")))) ≤ 10.
Proof.
  assert (reachable (image_loaded 0 (loadFull aurora (Some came_into_view)
                                       (initial "12:00:00")))) as Hr.
  { exists "12:00:00".
    eapply rtc_l; [apply (step_loadFull aurora), list_elem_of_here|].
    apply rtc_once, step_image_loaded. }
  split; [exact Hr|]. exact (reachable_logs_at_most_10 _ Hr).
Defined.

(** On that page [aurora] is marked as loaded and shows its picture. *)
Lemma loaded_image_shows_full_witness :
  reachable (image_loaded 0 (loadFull aurora (Some came_into_view)
                               (initial "12:00:00")))
  ∧ loaded_shows_full (image_loaded 0 (loadFull aurora (Some came_into_view)
                                         (initial "12:00:00"))).
Proof.
  assert (reachable (image_loaded 0 (loadFull aurora (Some came_into_view)
                                       (initial "12:00:00")))) as Hr.
  { exists "12:00:00".
    eapply rtc_l; [apply (step_loadFull aurora), list_elem_of_here|].
    apply rtc_once, step_image_loaded. }
  split; [exact Hr|]. exact (loaded_image_shows_full _ Hr).
Defined.

(** The same article enters twice within one second. *)
Lemma log_keys_collide_witness :
  isIntersecting came_into_view = isIntersecting came_into_view
  ∧ ¬ NoDup (log_key <$> logs (note came_into_view "use-case-1"
                                 (note came_into_view "use-case-1"
                                    (initial "12:00:00")))).
Proof.
  split; [reflexivity|].
  exact (proj2 (log_keys_collide came_into_view came_into_view "use-case-1"
                  (initial "12:00:00") eq_refl)).
Defined.

(** [aurora] asked for twice on the initial page. *)
Lemma loadFull_twice_logs_twice_witness :
  imageSrc (initial "12:00:00") !! Item.id aurora ≠ Some (Item.full aurora)
  ∧ length (logs (image_loaded 0 (image_loaded 0
               (loadFull aurora (Some went_out_of_view)
                  (loadFull aurora (Some came_into_view) (initial "12:00:00"))))))
    = 2.
Proof.
  assert (imageSrc (initial "12:00:00") !! Item.id aurora ≠ Some (Item.full aurora))
    as Hnot.
  { vm_compute. discriminate. }
  split; [exact Hnot|].
  destruct (loadFull_twice_logs_twice aurora came_into_view went_out_of_view
              (initial "12:00:00") Hnot) as (_ & _ & Hlogs).
  simpl in Hlogs. rewrite Hlogs. reflexivity.
Defined.

(** A batch for the nav section of the log. *)
Lemma nav_batch_witness :
  ∃ st,
    intersect thresholds_in_range 7 (params_of (NavSection Log) (initial "12:00:00"))
      (initial "12:00:00") = Some st
    ∧ current st = params_of (NavSection Log) (initial "12:00:00")
    ∧ activeSection (world (callback [went_out_of_view; came_into_view] st)) = Log.
Proof.
  eexists. split; [reflexivity|]. split; [reflexivity|].
  match goal with
  | |- activeSection (world (callback _ ?s)) = _ =>
      rewrite (nav_batch s Log (initial "12:00:00")
                 [went_out_of_view; came_into_view] eq_refl)
  end.
  reflexivity.
Defined.

(** A batch for the reveal block [cleanup]. *)
Lemma reveal_batch_witness :
  ∃ st,
    intersect thresholds_in_range 7
      (params_of (RevealBlock "cleanup") (initial "12:00:00"))
      (initial "12:00:00") = Some st
    ∧ current st = params_of (RevealBlock "cleanup") (initial "12:00:00")
    ∧ world (callback [went_out_of_view; came_into_view; came_into_view] st)
      = markRevealed "cleanup" (Some came_into_view) (initial "12:00:00").
Proof.
  eexists. split; [reflexivity|]. split; [reflexivity|].
  match goal with
  | |- world (callback _ ?s) = _ =>
      exact (proj1 (reveal_batch s "cleanup" (initial "12:00:00")
                      [went_out_of_view; came_into_view; came_into_view] eq_refl))
  end.
Defined.

(** A batch for the first scroll-spy article. *)
Lemma spy_batch_witness :
  ∃ st,
    intersect thresholds_in_range 7
      (params_of (SpyArticle "use-case-1") (initial "12:00:00"))
      (initial "12:00:00") = Some st
    ∧ current st = params_of (SpyArticle "use-case-1") (initial "12:00:00")
    ∧ length (logs (world st)) ≤ 10
    ∧ activeSection (world (callback [came_into_view; went_out_of_view] st)) = Spy.
Proof.
  eexists. split; [reflexivity|]. split; [reflexivity|].
  assert (length (logs (initial "12:00:00")) ≤ 10) as Hlen.
  { simpl. lia. }
  split; [exact Hlen|].
  match goal with
  | |- activeSection (world (callback _ ?s)) = _ =>
      destruct (spy_batch s "use-case-1" (initial "12:00:00")
                  [came_into_view; went_out_of_view] eq_refl Hlen)
        as (_ & Hact & _)
  end.
  exact Hact.
Defined.

(** The slider at 0.40 on the reveal block [cleanup]. *)
Lemma slider_recreates_observer_witness :
  ∃ st,
    intersect thresholds_in_range 7
      (params_of (RevealBlock "cleanup") (initial "12:00:00"))
      (initial "12:00:00") = Some st
    ∧ current st = params_of (RevealBlock "cleanup") (initial "12:00:00")
    ∧ (40 # 100)%Q ∈ slider_values
    ∧ ∃ st',
        update thresholds_in_range
          (params_of (RevealBlock "cleanup")
             (set_revealThreshold (40 # 100)%Q (initial "12:00:00"))) st
        = Returned st'
        ∧ Init.threshold (opts st') = Num (40 # 100)%Q.
Proof.
  eexists. split; [reflexivity|]. split; [reflexivity|].
  assert ((40 # 100)%Q ∈ slider_values) as Hin.
  { unfold slider_values. cbn [seq map]. do 7 apply list_elem_of_further.
    apply list_elem_of_here. }
  split; [exact Hin|].
  match goal with
  | |- ∃ st', update _ _ ?s = _ ∧ _ =>
      destruct (slider_recreates_observer s "cleanup" (initial "12:00:00")
                  (initial "12:00:00") (40 # 100)%Q eq_refl Hin)
        as (st' & Hup & Hth & _)
  end.
  exists st'. split; [exact Hup|exact Hth].
Defined.

(** The card [aurora] comes into view on the initial page. *)
Lemma gallery_card_loads_witness :
  ∃ st,
    intersect thresholds_in_range 7
      (params_of (GalleryCard aurora) (initial "12:00:00"))
      (initial "12:00:00") = Some st
    ∧ current st = params_of (GalleryCard aurora) (initial "12:00:00")
    ∧ watched st = {[node st]}
    ∧ target came_into_view = node st
    ∧ isIntersecting came_into_view = true
    ∧ imageSrc (world st) !! Item.id aurora ≠ Some (Item.full aurora)
    ∧ watched (callback [came_into_view] st) = ∅
    ∧ imageSrc (image_loaded (length (loading (world st)))
                  (world (callback [came_into_view] st))) !! Item.id aurora
      = Some (Item.full aurora).
Proof.
  eexists. split; [reflexivity|]. split; [reflexivity|].
  match goal with
  | |- watched ?s = _ ∧ _ =>
      assert (watched s = {[node s]}) as Hw by (vm_compute; reflexivity);
      assert (imageSrc (world s) !! Item.id aurora ≠ Some (Item.full aurora))
        as Hnot by (vm_compute; discriminate);
      destruct (gallery_card_loads s aurora (initial "12:00:00") came_into_view
                  eq_refl Hw eq_refl eq_refl Hnot) as (Hnone & _ & _ & Hfull & _)
  end.
  split; [exact Hw|]. split; [reflexivity|]. split; [reflexivity|].
  split; [exact Hnot|]. split; [exact Hnone|exact Hfull].
Defined.
